(** * A type-erased callable container with small-object optimisation

    Shallow embedding of [function.h] and the properties of the container
    that the specification states.  The repository keeps four texts of the
    header.  The first text of [function.h] is the current one (module
    [Final]).  The second text of [function.h] writes copy assignment with
    [swap] (module [CopySwap]).  [part_001] is a draft with a
    container-level [swap] (module [Draft], for the two places the
    properties look at).  [part_000] is an unfinished sketch that is not
    modelled.

    The header is a template library.  Its behaviour depends on

    - the concrete callable types [T] that client code supplies, through
      their call operator, copy constructor, move constructor, [sizeof],
      [alignof] and [std::is_nothrow_move_constructible];
    - the allocator behind [new] and [delete];
    - [sizeof(void * )] and [alignof(void * )].

    These are parameters of the development.  Objects that the C++ code
    reaches through pointers ([this], [to], [from], the heap block of a
    large callable) live in an explicit store, and every function of the
    header is a computation in a state-and-exception monad over it. *)

From Stdlib Require Import ZArith List.
From stdpp Require Import base option gmap strings.

Set Default Proof Using "Type".
Local Open Scope Z_scope.

(** ** Exceptions and outcomes *)

(** [bad_function_call] is the exception of the header, [bad_alloc] the one
    of [operator new]; [thrown c] stands for whatever a client type throws
    from its call operator or from a constructor. *)
Inductive exn : Type :=
| bad_function_call
| bad_alloc
| thrown (code : Z).

#[global] Instance exn_eq_dec : EqDecision exn.
Proof. solve_decision. Defined.

(** [bad_function_call::what()]. *)
Definition what_bad_function_call : string := "empty function call".

(** The ways a program leaves the defined behaviour of the language:
    undefined behaviour proper, and [std::terminate] (an exception that
    reaches the boundary of a [noexcept] function). *)
Inductive crash : Type :=
| undefined_behaviour
| terminate_called.

Inductive outcome (A : Type) : Type :=
| Ok (a : A)
| Throw (e : exn)
| Crash (c : crash).

Arguments Ok {A} a.
Arguments Throw {A} e.
Arguments Crash {A} c.

(** A function declared [noexcept]: an exception that would leave it calls
    [std::terminate]. *)
Definition noexcept_outcome {A} (o : outcome A) : outcome A :=
  match o with
  | Throw _ => Crash terminate_called
  | _ => o
  end.

(** ** Client types *)

(** A concrete callable type is named by a number; the table of its
    operations is generated once per type, so this name is also what the
    address of its operation table stands for. *)
Abbreviation tid := nat (only parsing).

(** What the header uses of a callable type [T] whose object state is of
    type [Obj].
    - [call] is [T::operator()]: the result (or the exception) and the state
      of the object after the call;
    - [copy_ctor] is [T(const T &)]: the new object, or an exception;
    - [move_ctor] is [T(T &&)]: the new object and what is left in the
      source, or an exception. *)
Record callable (R Args Obj : Type) : Type := {
  size_of : Z;
  align_of : Z;
  is_nothrow_move_constructible : bool;
  call : Obj -> Args -> outcome R * Obj;
  copy_ctor : Obj -> outcome Obj;
  move_ctor : Obj -> outcome (Obj * Obj)
}.

Arguments size_of {R Args Obj} c.
Arguments align_of {R Args Obj} c.
Arguments is_nothrow_move_constructible {R Args Obj} c.
Arguments call {R Args Obj} c o a.
Arguments copy_ctor {R Args Obj} c o.
Arguments move_ctor {R Args Obj} c o.

(** [T(std::move(x))] for a non-const [x].  When the move constructor is
    declared [noexcept] (which is what the trait reports) an exception
    inside it terminates the program. *)
Definition move_construct {R Args Obj} (c : callable R Args Obj) (o : Obj)
  : outcome (Obj * Obj) :=
  if is_nothrow_move_constructible c
  then noexcept_outcome (move_ctor c o)
  else move_ctor c o.

(** A type with value semantics: a copy and a moved-to object have the
    state of their source. *)
Record regular {R Args Obj} (c : callable R Args Obj) : Prop := {
  copy_preserves : forall o o', copy_ctor c o = Ok o' -> o' = o;
  move_preserves : forall o o' r, move_ctor c o = Ok (o', r) -> o' = o
}.

(** ** Memory *)

(** A pointer value as the inline buffer can hold it. *)
Inductive pointer : Type :=
| nullptr
| heap_block (a : positive).

#[global] Instance pointer_eq_dec : EqDecision pointer.
Proof. solve_decision. Defined.

(** [fn_storage_t]: the contents of the pointer-sized inline buffer.
    The buffer is raw memory; what matters to the header is what a
    [reinterpret_cast] finds there: nothing (indeterminate bytes, or an
    object whose lifetime has ended), a live object of type [T]
    constructed in place, or a pointer. *)
Inductive fn_storage_t (Obj : Type) : Type :=
| Indeterminate
| InPlace (T : tid) (o : Obj)
| Pointer (p : pointer).

Arguments Indeterminate {Obj}.
Arguments InPlace {Obj} T o.
Arguments Pointer {Obj} p.

(** The value of a [methods<R, Args...> const *]: the address of the
    empty-state table, the address of the table generated by
    [object_traits<T, isSmall>::get_methods], or an indeterminate value (a
    member that was never initialised). *)
Inductive methods_ptr : Type :=
| empty_table
| object_table (T : tid) (isSmall : bool)
| wild.

#[global] Instance methods_ptr_eq_dec : EqDecision methods_ptr.
Proof. solve_decision. Defined.

(** [struct storage]. *)
Record storage (Obj : Type) : Type := mk_storage {
  obj : fn_storage_t Obj;
  methods : methods_ptr
}.

Arguments mk_storage {Obj} obj methods.
Arguments obj {Obj} s.
Arguments methods {Obj} s.

(** The program state: the storage objects by address, the heap blocks
    obtained from [new] with the object each holds, and the allocator's
    answers to the coming requests ([false]: the request fails with
    [std::bad_alloc]; past the end of the list every request succeeds). *)
Record state (Obj : Type) : Type := mk_state {
  stores : gmap nat (storage Obj);
  heap : gmap positive (tid * Obj);
  oracle : list bool
}.

Arguments mk_state {Obj} stores heap oracle.
Arguments stores {Obj} s.
Arguments heap {Obj} s.
Arguments oracle {Obj} s.

Abbreviation loc := nat (only parsing).

(** ** The monad of the header's functions *)

Definition M (Obj A : Type) : Type := state Obj -> outcome A * state Obj.

Section Monad.
Context {Obj : Type}.

Definition ret {A} (a : A) : M Obj A := fun s => (Ok a, s).

Definition bind {A B} (m : M Obj A) (k : A -> M Obj B) : M Obj B :=
  fun s =>
    match m s with
    | (Ok a, s') => k a s'
    | (Throw e, s') => (Throw e, s')
    | (Crash c, s') => (Crash c, s')
    end.

Definition throw {A} (e : exn) : M Obj A := fun s => (Throw e, s).

Definition ub {A} : M Obj A := fun s => (Crash undefined_behaviour, s).

(** A pure computation of a client type, run at this point. *)
Definition lift {A} (o : outcome A) : M Obj A := fun s => (o, s).

(** [try { m } catch (...) { h }]. *)
Definition try_catch {A} (m : M Obj A) (h : exn -> M Obj A) : M Obj A :=
  fun s =>
    match m s with
    | (Throw e, s') => h e s'
    | r => r
    end.

(** The body of a [noexcept] function. *)
Definition noexcept {A} (m : M Obj A) : M Obj A :=
  fun s => let (o, s') := m s in (noexcept_outcome o, s').
End Monad.

Notation "x <- m ;; k" := (bind m (fun x => k))
  (at level 20, m at level 99, k at level 200, only parsing).
Notation "m ;; k" := (bind m (fun _ => k))
  (at level 100, k at level 200, right associativity, only parsing).

(** [struct methods]: the four operations of an operation table.  A
    storage is passed by its address. *)
Record methods_tbl (R Args Obj : Type) : Type := {
  invoke : loc -> Args -> M Obj R;
  copy : loc -> loc -> M Obj unit;
  move : loc -> loc -> M Obj unit;
  destroy : loc -> M Obj unit
}.

Arguments invoke {R Args Obj} m stg args.
Arguments copy {R Args Obj} m to from.
Arguments move {R Args Obj} m to from.
Arguments destroy {R Args Obj} m stg.

(** ** Memory operations *)

Section Memory.
Context {Obj : Type}.

Definition with_stores (f : gmap nat (storage Obj) -> gmap nat (storage Obj))
    (s : state Obj) : state Obj :=
  mk_state (f (stores s)) (heap s) (oracle s).

Definition with_heap (f : gmap positive (tid * Obj) -> gmap positive (tid * Obj))
    (s : state Obj) : state Obj :=
  mk_state (stores s) (f (heap s)) (oracle s).

Definition with_oracle (o : list bool) (s : state Obj) : state Obj :=
  mk_state (stores s) (heap s) o.

(** Reading a storage through a pointer to it.  A pointer to memory that
    holds no storage is not dereferenced by any defined program. *)
Definition load (l : loc) : M Obj (storage Obj) :=
  fun s =>
    match stores s !! l with
    | Some v => (Ok v, s)
    | None => (Crash undefined_behaviour, s)
    end.

(** [l->obj = b] and [l->methods = m]. *)
Definition set_obj (l : loc) (b : fn_storage_t Obj) : M Obj unit :=
  fun s =>
    match stores s !! l with
    | Some v => (Ok tt, with_stores (insert l (mk_storage b (methods v))) s)
    | None => (Crash undefined_behaviour, s)
    end.

Definition set_methods (l : loc) (m : methods_ptr) : M Obj unit :=
  fun s =>
    match stores s !! l with
    | Some v => (Ok tt, with_stores (insert l (mk_storage (obj v) m)) s)
    | None => (Crash undefined_behaviour, s)
    end.

(** The members of a storage under construction at [l], before the body
    of its constructor runs: [obj] has no initialiser, [methods] has the
    value [m] that its declaration gives it. *)
Definition default_init (l : loc) (m : methods_ptr) : M Obj unit :=
  fun s => (Ok tt, with_stores (insert l (mk_storage Indeterminate m)) s).

(** The memory of the storage at [l] goes away (end of a scope, or a
    constructor left by an exception). *)
Definition release (l : loc) (s : state Obj) : state Obj :=
  with_stores (delete l) s.

(** [new T(...)]: the allocation comes first and may fail; then the
    constructor runs, and if it throws the block is given back. *)
Definition new_ (T : tid) (init : M Obj Obj) : M Obj positive :=
  fun s =>
    match oracle s with
    | false :: rest => (Throw bad_alloc, with_oracle rest s)
    | _ =>
        match init (with_oracle (tail (oracle s)) s) with
        | (Ok v, s') =>
            let a := fresh (dom (heap s')) in
            (Ok a, with_heap (insert a (T, v)) s')
        | (Throw e, s') => (Throw e, s')
        | (Crash c, s') => (Crash c, s')
        end
    end.

(** The object of type [T] that [p] points to. *)
Definition deref (T : tid) (p : pointer) : M Obj Obj :=
  fun s =>
    match p with
    | heap_block a =>
        match heap s !! a with
        | Some (T', o) =>
            if decide (T' = T) then (Ok o, s) else (Crash undefined_behaviour, s)
        | None => (Crash undefined_behaviour, s)
        end
    | nullptr => (Crash undefined_behaviour, s)
    end.

(** The object at [a] changes state (its call operator ran). *)
Definition update (T : tid) (a : positive) (o : Obj) : M Obj unit :=
  fun s => (Ok tt, with_heap (insert a (T, o)) s).

(** [delete p] for a [T *]: nothing for a null pointer; otherwise the
    object is destroyed and its block given back. *)
Definition delete_ (T : tid) (p : pointer) : M Obj unit :=
  fun s =>
    match p with
    | nullptr => (Ok tt, s)
    | heap_block a =>
        match heap s !! a with
        | Some (T', _) =>
            if decide (T' = T) then (Ok tt, with_heap (delete a) s)
            else (Crash undefined_behaviour, s)
        | None => (Crash undefined_behaviour, s)
        end
    end.

(** A local storage object: constructed at an address of its own by
    [ctor], alive during [body], destroyed by [dtor] however [body] is
    left.  When the constructor throws there is no object and no
    destructor runs. *)
Definition scoped {A} (ctor dtor : loc -> M Obj unit) (body : loc -> M Obj A)
    : M Obj A :=
  fun s =>
    let temp := fresh (dom (stores s)) in
    match ctor temp s with
    | (Ok _, s1) =>
        match body temp s1 with
        | (Ok a, s2) =>
            match dtor temp s2 with
            | (Ok _, s3) => (Ok a, release temp s3)
            | (Throw e, s3) => (Throw e, release temp s3)
            | (Crash c, s3) => (Crash c, s3)
            end
        | (Throw e, s2) =>
            match dtor temp s2 with
            | (Ok _, s3) => (Throw e, release temp s3)
            | (Throw _, s3) => (Crash terminate_called, s3)
            | (Crash c, s3) => (Crash c, s3)
            end
        | (Crash c, s2) => (Crash c, s2)
        end
    | (Throw e, s1) => (Throw e, release temp s1)
    | (Crash c, s1) => (Crash c, s1)
    end.
End Memory.

(** * The current header: [function.h] *)

Module Final.
Section Final.
Context {R Args Obj : Type}.
Variable cls : tid -> callable R Args Obj.
Variables sizeof_ptr alignof_ptr : Z.

(** [is_small_v<T>]. *)
Definition is_small_v (T : tid) : bool :=
  (size_of (cls T) <=? sizeof_ptr)
  && (Z.rem alignof_ptr (align_of (cls T)) =? 0)
  && is_nothrow_move_constructible (cls T).

(** [storage::get_small_obj<T>]: the buffer read as a [const T &]. *)
Definition get_small_obj (T : tid) (stg : loc) : M Obj Obj :=
  s <- load stg ;;
  match obj s with
  | InPlace T' o => if decide (T' = T) then ret o else ub
  | _ => ub
  end.

(** [storage::get_large_obj<T>]: the buffer read as a [T *]. *)
Definition get_large_obj (T : tid) (stg : loc) : M Obj pointer :=
  s <- load stg ;;
  match obj s with
  | Pointer p => ret p
  | _ => ub
  end.

(** [get_empty_methods]: the address of the empty-state table, and the
    table itself. *)
Definition get_empty_methods : methods_ptr := empty_table.

Definition empty_methods_table : methods_tbl R Args Obj := {|
  invoke := fun _ _ => throw bad_function_call;
  copy := fun to from => (f <- load from ;; set_methods to (methods f));
  move := fun to from => noexcept (f <- load from ;; set_methods to (methods f));
  destroy := fun _ => ret tt
|}.

(** [object_traits<T, false>::get_methods]: the table of a large type. *)
Definition large_methods_table (T : tid) : methods_tbl R Args Obj := {|
  invoke := fun stg args =>
    (p <- get_large_obj T stg ;;
     o <- deref T p ;;
     match p with
     | heap_block a => update T a (snd (call (cls T) o args))
     | nullptr => ub
     end ;;
     lift (fst (call (cls T) o args)));
  copy := fun to from =>
    (q <- new_ T (p <- get_large_obj T from ;;
                  o <- deref T p ;;
                  lift (copy_ctor (cls T) o)) ;;
     set_obj to (Pointer (heap_block q)) ;;
     f <- load from ;;
     set_methods to (methods f));
  move := fun to from =>
    noexcept (f <- load from ;;
              set_obj to (obj f) ;;
              f <- load from ;;
              set_methods to (methods f) ;;
              set_methods from get_empty_methods);
  destroy := fun stg =>
    (p <- get_large_obj T stg ;;
     delete_ T p)
|}.

(** [object_traits<T, true>::get_methods]: the table of a small type.

    [get_small_obj] returns a [const T &].  So the call goes to the
    object in place, and in [move] the argument
    [std::move(from->get_small_obj<T>())] is a [const T &&], which
    [T(T &&)] does not accept: the constructor that overload resolution
    selects is the copy constructor, the source object is left as it
    was, and the [noexcept] of the operation turns an exception of that
    copy into [std::terminate]. *)
Definition small_methods_table (T : tid) : methods_tbl R Args Obj := {|
  invoke := fun stg args =>
    (o <- get_small_obj T stg ;;
     set_obj stg (InPlace T (snd (call (cls T) o args))) ;;
     lift (fst (call (cls T) o args)));
  copy := fun to from =>
    (o <- get_small_obj T from ;;
     o' <- lift (copy_ctor (cls T) o) ;;
     set_obj to (InPlace T o') ;;
     f <- load from ;;
     set_methods to (methods f));
  move := fun to from =>
    noexcept (f <- load from ;;
              set_methods to (methods f) ;;
              o <- get_small_obj T from ;;
              o' <- lift (copy_ctor (cls T) o) ;;
              set_obj to (InPlace T o'));
  destroy := fun stg =>
    (_ <- get_small_obj T stg ;;
     set_obj stg Indeterminate)
|}.

(** [object_traits<T, isSmall>::get_methods]: the address of the table
    of [T]. *)
Definition get_methods (T : tid) (isSmall : bool) : methods_ptr :=
  object_table T isSmall.

(** [p->...] for a table pointer [p]. *)
Definition table_at (p : methods_ptr) : M Obj (methods_tbl R Args Obj) :=
  match p with
  | empty_table => ret empty_methods_table
  | object_table T false => ret (large_methods_table T)
  | object_table T true => ret (small_methods_table T)
  | wild => ub
  end.

(** *** [struct storage] *)

(** [storage() = default], with the initialiser of [methods]. *)
Definition storage_default_ctor (this : loc) : M Obj unit :=
  default_init this get_empty_methods.

(** [storage(const storage &other)]. *)
Definition storage_copy_ctor (this other : loc) : M Obj unit :=
  default_init this get_empty_methods ;;
  o <- load other ;;
  t <- table_at (methods o) ;;
  copy t this other.

(** [storage(storage &&other) noexcept]. *)
Definition storage_move_ctor (this other : loc) : M Obj unit :=
  noexcept (default_init this get_empty_methods ;;
            o <- load other ;;
            t <- table_at (methods o) ;;
            move t this other).

(** [~storage()]; a destructor is [noexcept]. *)
Definition storage_dtor (this : loc) : M Obj unit :=
  noexcept (s <- load this ;;
            t <- table_at (methods s) ;;
            destroy t this).

(** [storage &operator=(const storage &rhs)]. *)
Definition storage_copy_assign (this rhs : loc) : M Obj unit :=
  if decide (this <> rhs) then
    scoped (fun temp => storage_copy_ctor temp this) storage_dtor
      (fun temp =>
         s <- load this ;;
         t <- table_at (methods s) ;;
         destroy t this ;;
         try_catch
           (r <- load rhs ;;
            t <- table_at (methods r) ;;
            copy t this rhs)
           (fun e =>
              tmp <- load temp ;;
              t <- table_at (methods tmp) ;;
              copy t this temp ;;
              throw e))
  else ret tt.

(** [storage &operator=(storage &&rhs) noexcept]. *)
Definition storage_move_assign (this rhs : loc) : M Obj unit :=
  noexcept (if decide (this <> rhs) then
              s <- load this ;;
              t <- table_at (methods s) ;;
              destroy t this ;;
              r <- load rhs ;;
              t <- table_at (methods r) ;;
              move t this rhs
            else ret tt).

(** *** [struct function<R(Args...)>]

    A container is its one member [stg]; its address is that of the
    storage. *)

(** [function() noexcept]. *)
Definition function_default_ctor (this : loc) : M Obj unit :=
  noexcept (storage_default_ctor this ;;
            set_methods this get_empty_methods).

(** [function(T val)].  [val] is the parameter object; it is moved from
    in the small case and copied in the large case. *)
Definition function_ctor (T : tid) (this : loc) (val : Obj) : M Obj unit :=
  storage_default_ctor this ;;
  (if is_small_v T then
     v <- lift (move_construct (cls T) val) ;;
     set_obj this (InPlace T (fst v))
   else
     q <- new_ T (lift (copy_ctor (cls T) val)) ;;
     set_obj this (Pointer (heap_block q))) ;;
  set_methods this (get_methods T (is_small_v T)).

(** The defaulted copy and move constructors, assignments and destructor
    are those of the member. *)
Definition function_copy_ctor := storage_copy_ctor.
Definition function_move_ctor := storage_move_ctor.
Definition function_copy_assign := storage_copy_assign.
Definition function_move_assign := storage_move_assign.
Definition function_dtor := storage_dtor.

(** [R operator()(Args... args)]. *)
Definition function_call (this : loc) (args : Args) : M Obj R :=
  s <- load this ;;
  t <- table_at (methods s) ;;
  invoke t this args.

(** [explicit operator bool() const noexcept]. *)
Definition function_bool (this : loc) : M Obj bool :=
  s <- load this ;;
  ret (bool_decide (methods s <> get_empty_methods)).

(** What [target] returns: a null pointer, the address of the inline
    buffer of the container, or the pointer found in the buffer. *)
Inductive target_ptr : Type :=
| target_null
| target_buffer (this : loc)
| target_heap (a : positive).

#[global] Instance target_ptr_eq_dec : EqDecision target_ptr.
Proof. solve_decision. Defined.

(** [T *target() noexcept] (the [const] overload reads the same). *)
Definition function_target (T : tid) (this : loc) : M Obj target_ptr :=
  s <- load this ;;
  if decide (get_methods T (is_small_v T) = methods s) then
    if is_small_v T then ret (target_buffer this)
    else
      p <- get_large_obj T this ;;
      match p with
      | nullptr => ret target_null
      | heap_block a => ret (target_heap a)
      end
  else ret target_null.

(** *** What a container holds

    [holds s this None]: the container at [this] is empty.
    [holds s this (Some (T, o))]: it holds the callable [o] of type [T],
    in its buffer when [T] is small and in a heap block that its buffer
    points to when [T] is large.  These are the states that the
    constructors of the header build. *)
Inductive holds (s : state Obj) (this : loc) : option (tid * Obj) -> Prop :=
| holds_nothing b :
    stores s !! this = Some (mk_storage b get_empty_methods) ->
    holds s this None
| holds_small T o :
    is_small_v T = true ->
    stores s !! this = Some (mk_storage (InPlace T o) (get_methods T true)) ->
    holds s this (Some (T, o))
| holds_large T a o :
    is_small_v T = false ->
    stores s !! this =
      Some (mk_storage (Pointer (heap_block a)) (get_methods T false)) ->
    heap s !! a = Some (T, o) ->
    holds s this (Some (T, o)).

(** The pointer [p] that [target] returned points to the live object [o]
    of type [T]. *)
Definition points_to (s : state Obj) (p : target_ptr) (T : tid) (o : Obj) : Prop :=
  match p with
  | target_null => False
  | target_buffer l => exists m, stores s !! l = Some (mk_storage (InPlace T o) m)
  | target_heap a => heap s !! a = Some (T, o)
  end.
End Final.
End Final.

(** * The copy-and-swap variant: the second text kept in [function.h]

    It differs from the current header in four places: [is_small_v] does
    not ask for a non-throwing move constructor, no operation is declared
    [noexcept], the member [methods] of a storage has no initialiser, and
    copy assignment is written with [swap].  The small-object move copies
    the bytes of the buffer.  A container is laid out as in the current
    header. *)

Module CopySwap.
Section CopySwap.
Context {R Args Obj : Type}.
Variable cls : tid -> callable R Args Obj.
Variables sizeof_ptr alignof_ptr : Z.

(** [is_small_v<T>]. *)
Definition is_small_v (T : tid) : bool :=
  (size_of (cls T) <=? sizeof_ptr)
  && (Z.rem alignof_ptr (align_of (cls T)) =? 0).

(** [reinterpret_cast<T &>(stg->obj)] and
    [reinterpret_cast<T *&>(stg->obj)]. *)
Definition as_object (T : tid) (stg : loc) : M Obj Obj :=
  s <- load stg ;;
  match obj s with
  | InPlace T' o => if decide (T' = T) then ret o else ub
  | _ => ub
  end.

Definition as_pointer (T : tid) (stg : loc) : M Obj pointer :=
  s <- load stg ;;
  match obj s with
  | Pointer p => ret p
  | _ => ub
  end.

Definition get_empty_methods : methods_ptr := empty_table.

Definition empty_methods_table : methods_tbl R Args Obj := {|
  invoke := fun _ _ => throw bad_function_call;
  copy := fun to from => (f <- load from ;; set_methods to (methods f));
  move := fun to from => (f <- load from ;; set_methods to (methods f));
  destroy := fun _ => ret tt
|}.

(** [object_traits<T, false>::get_methods]. *)
Definition large_methods_table (T : tid) : methods_tbl R Args Obj := {|
  invoke := fun stg args =>
    (p <- as_pointer T stg ;;
     o <- deref T p ;;
     match p with
     | heap_block a => update T a (snd (call (cls T) o args))
     | nullptr => ub
     end ;;
     lift (fst (call (cls T) o args)));
  copy := fun to from =>
    (q <- new_ T (p <- as_pointer T from ;;
                  o <- deref T p ;;
                  lift (copy_ctor (cls T) o)) ;;
     set_obj to (Pointer (heap_block q)) ;;
     f <- load from ;;
     set_methods to (methods f));
  move := fun to from =>
    (f <- load from ;;
     set_obj to (obj f) ;;
     f <- load from ;;
     set_methods to (methods f) ;;
     set_methods from get_empty_methods);
  destroy := fun stg =>
    (p <- as_pointer T stg ;;
     delete_ T p)
|}.

(** [object_traits<T, true>::get_methods]. *)
Definition small_methods_table (T : tid) : methods_tbl R Args Obj := {|
  invoke := fun stg args =>
    (o <- as_object T stg ;;
     set_obj stg (InPlace T (snd (call (cls T) o args))) ;;
     lift (fst (call (cls T) o args)));
  copy := fun to from =>
    (o <- as_object T from ;;
     o' <- lift (copy_ctor (cls T) o) ;;
     set_obj to (InPlace T o') ;;
     f <- load from ;;
     set_methods to (methods f));
  move := fun to from =>
    (f <- load from ;;
     set_obj to (obj f) ;;
     f <- load from ;;
     set_methods to (methods f));
  destroy := fun stg =>
    (_ <- as_object T stg ;;
     set_obj stg Indeterminate)
|}.

Definition get_methods (T : tid) (isSmall : bool) : methods_ptr :=
  object_table T isSmall.

Definition table_at (p : methods_ptr) : M Obj (methods_tbl R Args Obj) :=
  match p with
  | empty_table => ret empty_methods_table
  | object_table T false => ret (large_methods_table T)
  | object_table T true => ret (small_methods_table T)
  | wild => ub
  end.

(** [storage(const storage &other)]: [methods] starts indeterminate. *)
Definition storage_copy_ctor (this other : loc) : M Obj unit :=
  default_init this wild ;;
  o <- load other ;;
  t <- table_at (methods o) ;;
  copy t this other.

(** [storage(storage &&other) noexcept]. *)
Definition storage_move_ctor (this other : loc) : M Obj unit :=
  noexcept (default_init this wild ;;
            o <- load other ;;
            t <- table_at (methods o) ;;
            move t this other).

(** [~storage()]. *)
Definition storage_dtor (this : loc) : M Obj unit :=
  noexcept (s <- load this ;;
            t <- table_at (methods s) ;;
            destroy t this).

(** [void swap(storage &other) noexcept]: two [std::swap]s, each a move
    out, a move across and a move back of a trivially copyable member. *)
Definition swap (this other : loc) : M Obj unit :=
  noexcept (a <- load this ;;
            b <- load other ;;
            set_methods this (methods b) ;;
            set_methods other (methods a) ;;
            a <- load this ;;
            b <- load other ;;
            set_obj this (obj b) ;;
            set_obj other (obj a)).

(** [storage &operator=(const storage &rhs)]: the temporary [storage(rhs)] is swapped with [this]. *)
Definition storage_copy_assign (this rhs : loc) : M Obj unit :=
  if decide (this <> rhs) then
    scoped (fun temp => storage_copy_ctor temp rhs) storage_dtor
      (fun temp => swap temp this)
  else ret tt.

(** [storage &operator=(storage &&rhs) noexcept]. *)
Definition storage_move_assign (this rhs : loc) : M Obj unit :=
  noexcept (if decide (this <> rhs) then
              s <- load this ;;
              t <- table_at (methods s) ;;
              destroy t this ;;
              r <- load rhs ;;
              t <- table_at (methods r) ;;
              move t this rhs
            else ret tt).

(** [function() noexcept]. *)
Definition function_default_ctor (this : loc) : M Obj unit :=
  noexcept (default_init this wild ;;
            set_methods this get_empty_methods).

(** [function(T val)].  The member [stg] is constructed before the body
    runs, so that when the body is left by an exception the destructor of
    [stg] runs, on a table pointer that was never set.  (In the current
    header the member initialiser has made it the empty table, whose
    destroy operation does nothing.) *)
Definition function_ctor (T : tid) (this : loc) (val : Obj) : M Obj unit :=
  default_init this wild ;;
  try_catch
    ((if is_small_v T then
        v <- lift (move_construct (cls T) val) ;;
        set_obj this (InPlace T (fst v))
      else
        q <- new_ T (lift (copy_ctor (cls T) val)) ;;
        set_obj this (Pointer (heap_block q))) ;;
     set_methods this (get_methods T (is_small_v T)))
    (fun e => storage_dtor this ;; throw e).

(** [R operator()(Args... args)]. *)
Definition function_call (this : loc) (args : Args) : M Obj R :=
  s <- load this ;;
  t <- table_at (methods s) ;;
  invoke t this args.

(** What a container holds, as for the current header, by the
    classification of this text. *)
Inductive holds (s : state Obj) (this : loc) : option (tid * Obj) -> Prop :=
| holds_nothing b :
    stores s !! this = Some (mk_storage b get_empty_methods) ->
    holds s this None
| holds_small T o :
    is_small_v T = true ->
    stores s !! this = Some (mk_storage (InPlace T o) (get_methods T true)) ->
    holds s this (Some (T, o))
| holds_large T a o :
    is_small_v T = false ->
    stores s !! this =
      Some (mk_storage (Pointer (heap_block a)) (get_methods T false)) ->
    heap s !! a = Some (T, o) ->
    holds s this (Some (T, o)).
End CopySwap.
End CopySwap.

(** * The draft with a container-level swap: [part_001]

    Only the two places of this draft that the properties below look at:
    the move operation of the small-object table, which does call the move
    constructor and then resets the source to the empty state, and
    [function::swap]. *)

Module Draft.
Section Draft.
Context {R Args Obj : Type}.
Variable cls : tid -> callable R Args Obj.

Definition get_empty_methods : methods_ptr := empty_table.

(** [reinterpret_cast<T &>(from->obj)]. *)
Definition as_object (T : tid) (stg : loc) : M Obj Obj :=
  s <- load stg ;;
  match obj s with
  | InPlace T' o => if decide (T' = T) then ret o else ub
  | _ => ub
  end.

(** The move operation of [object_traits<T, true>::get_methods]. *)
Definition small_move (T : tid) (to from : loc) : M Obj unit :=
  o <- as_object T from ;;
  v <- lift (move_construct (cls T) o) ;;
  set_obj from (InPlace T (snd v)) ;;
  set_obj to (InPlace T (fst v)) ;;
  f <- load from ;;
  set_methods to (methods f) ;;
  set_methods from get_empty_methods.

(** [void function::swap(function &other) noexcept]. *)
Definition swap (this other : loc) : M Obj unit :=
  noexcept (a <- load this ;;
            b <- load other ;;
            set_obj this (obj b) ;;
            set_obj other (obj a) ;;
            a <- load this ;;
            b <- load other ;;
            set_methods this (methods b) ;;
            set_methods other (methods a)).
End Draft.
End Draft.

(** * Ownership of heap blocks *)

Section Ownership.
Context {Obj : Type}.

(** The heap block that the buffer of the storage at [l] points to, if its
    buffer holds a pointer to one. *)
Definition block_of (s : state Obj) (l : loc) : option positive :=
  match stores s !! l with
  | Some v =>
      match obj v with
      | Pointer (heap_block a) => Some a
      | _ => None
      end
  | None => None
  end.

(** The storages at [c] and [d] do not point to the same heap block. *)
Definition apart (s : state Obj) (c d : loc) : Prop :=
  forall a, block_of s c = Some a -> block_of s d <> Some a.
End Ownership.

(** * Concrete client types

    Callables of signature [Z(Z)] whose state is one integer, used to run
    the header on concrete inputs.  Pointers are 8 bytes, 8-aligned. *)

Module Examples.
(** A counter: every call increments the count and returns it.  (For the
    small one the count is a [mutable] member, the call operator being
    [const].) *)
Definition counter (size align : Z) : callable Z Z Z := {|
  size_of := size;
  align_of := align;
  is_nothrow_move_constructible := true;
  call := fun o _ => (Ok (o + 1), o + 1);
  copy_ctor := fun o => Ok o;
  move_ctor := fun o => Ok (o, o)
|}.

(** Adds a captured number to its argument. *)
Definition adder (size align : Z) : callable Z Z Z := {|
  size_of := size;
  align_of := align;
  is_nothrow_move_constructible := true;
  call := fun o a => (Ok (o + a), o);
  copy_ctor := fun o => Ok o;
  move_ctor := fun o => Ok (o, o)
|}.

(** A type whose copy constructor throws and whose move constructor is
    [noexcept]. *)
Definition fragile (size align : Z) : callable Z Z Z := {|
  size_of := size;
  align_of := align;
  is_nothrow_move_constructible := true;
  call := fun o a => (Ok (o + a), o);
  copy_ctor := fun _ => Throw (thrown 7);
  move_ctor := fun o => Ok (o, 0)
|}.

(** A type whose move constructor is not [noexcept] and throws. *)
Definition shaky (size align : Z) : callable Z Z Z := {|
  size_of := size;
  align_of := align;
  is_nothrow_move_constructible := false;
  call := fun o a => (Ok (o + a), o);
  copy_ctor := fun o => Ok o;
  move_ctor := fun _ => Throw (thrown 9)
|}.

Definition small_counter : tid := 0%nat.
Definition large_counter : tid := 1%nat.
Definition small_adder : tid := 2%nat.
Definition large_adder : tid := 3%nat.
Definition small_fragile : tid := 4%nat.
Definition large_fragile : tid := 5%nat.
Definition pointer_sized_shaky : tid := 6%nat.

Definition cls (T : tid) : callable Z Z Z :=
  match T with
  | 0%nat => counter 4 4
  | 1%nat => counter 64 8
  | 2%nat => adder 8 8
  | 3%nat => adder 24 8
  | 4%nat => fragile 8 8
  | 5%nat => fragile 16 8
  | _ => shaky 8 8
  end.

Definition sizeof_ptr : Z := 8.
Definition alignof_ptr : Z := 8.

(** No storage, no heap block, an allocator that never fails. *)
Definition start : state Z := mk_state ∅ ∅ [].

(** The state after [m], whatever its outcome. *)
Definition after {A} (m : M Z A) (s : state Z) : state Z := snd (m s).

(** [function<Z(Z)> c(f)] at address [this], for [f] of type [T] with
    state [val], in the current header. *)
Definition make (T : tid) (this : loc) (val : Z) (s : state Z) : state Z :=
  after (Final.function_ctor cls sizeof_ptr alignof_ptr T this val) s.

(** The allocator is to answer the coming requests by [o]. *)
Definition allocator (o : list bool) (s : state Z) : state Z := with_oracle o s.

(** The container at 0 holds a large adder, the one at 1 a large
    counter. *)
Definition two_large : state Z :=
  make large_counter 1%nat 20 (make large_adder 0%nat 10 start).
End Examples.

(** * Properties of the current header *)

Arguments Final.is_small_v : simpl never.
Arguments CopySwap.is_small_v : simpl never.

(** Inversion of a run of the header's code: unfold the monad and the
    memory operations in [H], split on what each step found, and simplify
    the lookups. *)
Ltac mrun H :=
  repeat first
    [ progress simplify_eq/=
    | progress unfold bind, ret, throw, ub, lift, noexcept, try_catch, load, set_obj,
        set_methods, default_init, update, deref, delete_, new_, release,
        with_stores, with_heap, with_oracle,
        Final.get_small_obj, Final.get_large_obj,
        CopySwap.as_object, CopySwap.as_pointer, Draft.as_object in H
    | progress rewrite ?lookup_insert_eq in H
    | rewrite lookup_insert_ne in H by done
    | match type of H with
      | context [match ?x with _ => _ end] =>
          lazymatch x with
          | context [match _ with _ => _ end] => fail
          | _ => destruct x eqn:?
          end
      end ].

(** The copy of an object of a regular type is that object. *)
Ltac copied :=
  match goal with
  | Hx : copy_ctor _ _ = Ok _ |- _ => apply copy_preserves in Hx as ->; [|done]
  end.

Section FinalProperties.
Context {R Args Obj : Type}.
Variable cls : tid -> callable R Args Obj.
Variables sizeof_ptr alignof_ptr : Z.

Local Abbreviation is_small_v := (Final.is_small_v cls sizeof_ptr alignof_ptr).
Local Abbreviation function_ctor := (Final.function_ctor cls sizeof_ptr alignof_ptr).
Local Abbreviation function_target := (Final.function_target cls sizeof_ptr alignof_ptr).
Local Abbreviation function_call := (Final.function_call cls).
Local Abbreviation holds := (Final.holds cls sizeof_ptr alignof_ptr).

(** ** What a call does, by the table the container points to *)

Lemma call_empty (s : state Obj) (this : loc) (args : Args) b :
  stores s !! this = Some (mk_storage b empty_table) ->
  function_call this args s = (Throw bad_function_call, s).
Proof. intros H. unfold Final.function_call, bind, load. by rewrite H. Qed.

Lemma call_small (s : state Obj) (this : loc) (args : Args) T o :
  stores s !! this = Some (mk_storage (InPlace T o) (object_table T true)) ->
  function_call this args s =
    (fst (call (cls T) o args),
     with_stores (insert this (mk_storage (InPlace T (snd (call (cls T) o args)))
                                 (object_table T true))) s).
Proof.
  intros H. unfold Final.function_call, bind, load. rewrite H. simpl.
  unfold Final.get_small_obj, bind, load, set_obj, lift. rewrite H. simpl.
  rewrite decide_True by done. simpl. rewrite H. done.
Qed.

Lemma call_large (s : state Obj) (this : loc) (args : Args) T a o :
  stores s !! this = Some (mk_storage (Pointer (heap_block a)) (object_table T false)) ->
  heap s !! a = Some (T, o) ->
  function_call this args s =
    (fst (call (cls T) o args),
     with_heap (insert a (T, snd (call (cls T) o args))) s).
Proof.
  intros H Ha. unfold Final.function_call, bind, load. rewrite H. simpl.
  unfold Final.get_large_obj, bind, load, deref, update, lift. rewrite H. simpl.
  rewrite Ha. rewrite decide_True by done. done.
Qed.

(** A container that holds [o] answers a call as [o] does. *)
Lemma call_held (s : state Obj) (this : loc) (args : Args) T o :
  holds s this (Some (T, o)) ->
  fst (function_call this args s) = fst (call (cls T) o args).
Proof.
  inversion 1; subst.
  - by erewrite call_small.
  - by erewrite call_large.
Qed.

(** ** Construction from a callable *)

(** C1.  A container constructed from the callable [val] of type [T],
    small or large, holds [val] and answers a call with arguments [args]
    as [val] itself does: same result, or same exception.  ([val] is the
    parameter of the constructor, the caller's callable passed by value;
    its type copies and moves by value.) *)
Theorem construct_then_call (s s' : state Obj) (T : tid) (this : loc)
    (val : Obj) (args : Args) :
  regular (cls T) ->
  function_ctor T this val s = (Ok tt, s') ->
  holds s' this (Some (T, val))
  /\ fst (function_call this args s') = fst (call (cls T) val args).
Proof.
  intros Hreg H.
  assert (Hh : holds s' this (Some (T, val))); [|split; [done|by apply call_held]].
  revert H.
  unfold Final.function_ctor, Final.storage_default_ctor, default_init, bind.
  simpl. destruct (is_small_v T) eqn:Hs.
  - unfold lift, move_construct, set_obj, set_methods, Final.get_methods. simpl.
    destruct (move_ctor (cls T) val) as [[o' r]| |] eqn:Hm;
      destruct (is_nothrow_move_constructible (cls T)); simpl; try done.
    all: rewrite !lookup_insert_eq; simpl; rewrite !lookup_insert_eq; simpl.
    all: intros [= <-]; apply move_preserves in Hm as ->; [|done].
    all: apply Final.holds_small; [done|]; simpl; by rewrite lookup_insert_eq.
  - unfold new_, lift, set_obj, set_methods, Final.get_methods. simpl.
    destruct (copy_ctor (cls T) val) as [o'| |] eqn:Hc.
    2,3: by destruct (oracle s) as [|[|] ?].
    apply copy_preserves in Hc as ->; [|done].
    intros H.
    assert (exists orc, s' = mk_state
       (<[this := mk_storage (Pointer (heap_block (fresh (dom (heap s))))) (object_table T false)]>
          (stores s))
       (<[fresh (dom (heap s)) := (T, val)]> (heap s)) orc) as [orc ->].
    { destruct (oracle s) as [|[|] ?]; simpl in H; try done.
      all: rewrite !lookup_insert_eq in H; simpl in H; rewrite !lookup_insert_eq in H; simpl in H.
      all: injection H as <-; unfold with_stores, with_heap, with_oracle; simpl.
      all: rewrite !insert_insert_eq; eauto. }
    eapply Final.holds_large; [done|simpl; by rewrite lookup_insert_eq|].
    simpl. by rewrite lookup_insert_eq.
Qed.

(** C3.  A container for which [operator bool] answers [false] throws
    [bad_function_call] when called, and nothing else happens; the
    message of the exception is "empty function call". *)
Theorem call_on_empty (s : state Obj) (this : loc) (args : Args) :
  Final.function_bool this s = (Ok false, s) ->
  function_call this args s = (Throw bad_function_call, s)
  /\ what_bad_function_call = "empty function call"%string.
Proof.
  unfold Final.function_bool, bind, load, ret. intros H. split; [|done].
  destruct (stores s !! this) as [[b m]|] eqn:E; [|done].
  simpl in H. injection H as H. apply bool_decide_eq_false in H.
  apply dec_stable in H. simpl in H. subst m. by eapply call_empty.
Qed.

Lemma default_ctor_holds (s : state Obj) (this : loc) :
  exists s', Final.function_default_ctor this s = (Ok tt, s') /\ holds s' this None.
Proof.
  unfold Final.function_default_ctor, Final.storage_default_ctor, noexcept, bind,
    default_init, set_methods. simpl. rewrite lookup_insert_eq. simpl.
  eexists. split; [done|]. eapply Final.holds_nothing. simpl.
  by rewrite lookup_insert_eq.
Qed.

Lemma bool_held (s : state Obj) (this : loc) (x : option (tid * Obj)) :
  holds s this x ->
  Final.function_bool this s = (Ok (bool_decide (x <> None)), s).
Proof.
  unfold Final.function_bool, bind, load, ret.
  inversion 1 as [b Hb|T o Hs Hb|T a o Hs Hb Ha]; subst; by rewrite Hb.
Qed.

(** C10.  A call that returns or throws leaves the table pointer of the
    container as it was; a pointer in the buffer stays the same pointer,
    an object in the buffer stays an object of the same type (the call
    may change its state); no other storage changes.  A call on an empty
    container changes nothing at all. *)
Theorem call_keeps_routing (s s' : state Obj) (this : loc) (args : Args)
    (r : outcome R) :
  function_call this args s = (r, s') ->
  (forall c, r <> Crash c) ->
  exists v v',
    stores s !! this = Some v /\ stores s' !! this = Some v'
    /\ methods v' = methods v
    /\ (forall p, obj v = Pointer p -> obj v' = Pointer p)
    /\ (forall T o, obj v = InPlace T o -> exists o', obj v' = InPlace T o')
    /\ (methods v = Final.get_empty_methods -> r = Throw bad_function_call /\ s' = s)
    /\ (forall l, l <> this -> stores s' !! l = stores s !! l).
Proof.
  intros H Hr.
  assert (Hc : forall c (x : state Obj), (Crash c, x) = (r, s') -> False).
  { intros c x [= <- _]. by eapply Hr. }
  unfold Final.function_call, bind, load in H.
  destruct (stores s !! this) as [[b m]|] eqn:E; [|by edestruct Hc].
  destruct m as [|T [|]|]; simpl in H.
  - injection H as <- <-. exists (mk_storage b empty_table), (mk_storage b empty_table).
    rewrite E. repeat split; eauto.
  - unfold Final.get_small_obj, bind, load, set_obj, lift, ret, ub in H.
    rewrite E in H. simpl in H.
    destruct b as [|T' o|p]; simpl in H; try by edestruct Hc.
    destruct (decide (T' = T)) as [->|]; simpl in H; [|by edestruct Hc].
    rewrite E in H. simpl in H.
    exists (mk_storage (InPlace T o) (object_table T true)),
           (mk_storage (InPlace T (snd (call (cls T) o args))) (object_table T true)).
    assert (s' = with_stores
                   (insert this (mk_storage (InPlace T (snd (call (cls T) o args)))
                                   (object_table T true))) s) as ->.
    { destruct (fst (call (cls T) o args)); by simplify_eq. }
    simpl. rewrite lookup_insert_eq. repeat split; eauto; try done.
    + intros ?? [= <- <-]. eauto.
    + intros l Hl. by rewrite lookup_insert_ne.
  - unfold Final.get_large_obj, bind, load, deref, update, lift, ret, ub in H.
    rewrite E in H. simpl in H.
    destruct b as [|T' o|[|a]]; simpl in H; try by edestruct Hc.
    destruct (heap s !! a) as [[T' o]|]; [|by edestruct Hc].
    destruct (decide (T' = T)) as [->|]; [|by edestruct Hc]. simpl in H.
    exists (mk_storage (Pointer (heap_block a)) (object_table T false)),
           (mk_storage (Pointer (heap_block a)) (object_table T false)).
    assert (s' = with_heap (insert a (T, snd (call (cls T) o args))) s) as ->.
    { destruct (fst (call (cls T) o args)); by simplify_eq. }
    simpl. repeat split; eauto; try done.
  - by edestruct Hc.
Qed.

Lemma target_default_ctor (s0 : state Obj) (this : loc) (U : tid) :
  fst (function_target U this (snd (Final.function_default_ctor this s0)))
  = Ok Final.target_null.
Proof.
  unfold Final.function_target, Final.function_default_ctor,
    Final.storage_default_ctor, noexcept, bind, default_init, set_methods, load.
  simpl. rewrite lookup_insert_eq. simpl. by rewrite lookup_insert_eq.
Qed.

Lemma target_held (s : state Obj) (this : loc) (x : option (tid * Obj))
    (U : tid) :
  holds s this x ->
  exists p v,
    function_target U this s = (Ok p, s)
    /\ stores s !! this = Some v
    /\ (p <> Final.target_null <->
        methods v = Final.get_methods U (is_small_v U))
    /\ (p <> Final.target_null <->
        exists o, x = Some (U, o) /\ Final.points_to s p U o).
Proof.
  intros H. unfold Final.function_target, bind, load.
  inversion H as [b Hb|T o Hs Hb|T a o Hs Hb Ha]; subst; rewrite Hb; simpl.
  - exists Final.target_null. eexists. split; [done|]. split; [done|]. simpl.
    unfold Final.get_empty_methods, Final.get_methods.
    repeat split; try done. intros (? & ? & ?). done.
  - destruct (decide (Final.get_methods U (is_small_v U) = Final.get_methods T true))
      as [Heq|Hne].
    + injection Heq as HT HU. subst T. rewrite Hs.
      exists (Final.target_buffer this). eexists. split; [done|]. split; [done|].
      simpl. repeat split; try done.
      intros _. exists o. split; [done|]. eauto.
    + exists Final.target_null. eexists. split; [done|]. split; [done|]. simpl.
      repeat split; try done.
      by intros (? & _ & []).
  - destruct (decide (Final.get_methods U (is_small_v U) = Final.get_methods T false))
      as [Heq|Hne].
    + injection Heq as HT HU. subst T. rewrite Hs.
      unfold Final.get_large_obj, bind, load, ret. rewrite Hb. simpl.
      exists (Final.target_heap a). eexists. split; [done|]. split; [done|].
      simpl. repeat split; try done.
      intros _. exists o. done.
    + exists Final.target_null. eexists. split; [done|]. split; [done|]. simpl.
      repeat split; try done.
      by intros (? & _ & []).
Qed.

(** C6.  On a container in a state that the header builds, [target<U>()]
    returns a non-null pointer exactly when the table pointer of the
    container is the address of the table of [U], which is exactly when
    the container holds an object of type [U]; the pointer then points to
    that object.  So it is null for every type other than the held one,
    and for every type on an empty container, a default-constructed one
    in particular. *)
Theorem target_exact (s : state Obj) (this : loc) (x : option (tid * Obj))
    (U : tid) :
  holds s this x ->
  exists p v,
    function_target U this s = (Ok p, s)
    /\ stores s !! this = Some v
    /\ (p <> Final.target_null <->
        methods v = Final.get_methods U (is_small_v U))
    /\ (p <> Final.target_null <->
        exists o, x = Some (U, o) /\ Final.points_to s p U o)
    /\ (forall T o, x = Some (T, o) -> U <> T -> p = Final.target_null)
    /\ (x = None -> p = Final.target_null)
    /\ (forall s0, fst (function_target U this
                         (snd (Final.function_default_ctor this s0)))
                  = Ok Final.target_null).
Proof.
  intros H. destruct (target_held s this x U H) as (p & v & Ht & Hv & H1 & H2).
  exists p, v. repeat split; try done; try apply H1; try apply H2.
  - intros T o -> HU. destruct (decide (p = Final.target_null)) as [|Hp]; [done|].
    apply H2 in Hp as (? & [= -> _] & _). done.
  - intros ->. destruct (decide (p = Final.target_null)) as [|Hp]; [done|].
    by apply H2 in Hp as (? & ? & _).
  - intros s0. apply target_default_ctor.
Qed.

(** ** Copy construction that fails *)

(** The copy operation of a table writes its destination only once the
    new object exists: when it throws, no storage and no heap block has
    changed. *)
Lemma copy_throw_frame (p : methods_ptr) (t : methods_tbl R Args Obj)
    (s0 s s' : state Obj) (to from : loc) (e : exn) :
  Final.table_at cls p s0 = (Ok t, s0) ->
  copy t to from s = (Throw e, s') ->
  stores s' = stores s /\ heap s' = heap s.
Proof.
  intros Ht H.
  destruct p as [|T [|]|]; simpl in Ht; unfold ret, ub in Ht; simplify_eq;
    simpl in H; by mrun H.
Qed.

(** All that a failed copy construction leaves behind: the storage under
    construction with its members as initialised, and the allocator one
    answer further. *)
Lemma copy_ctor_throw_state (s s' : state Obj) (this other : loc) (e : exn) :
  Final.storage_copy_ctor cls this other s = (Throw e, s') ->
  exists orc,
    s' = mk_state (<[this := mk_storage Indeterminate Final.get_empty_methods]> (stores s))
           (heap s) orc.
Proof.
  intros H. destruct (decide (this = other)) as [->|Hne].
  all: unfold Final.storage_copy_ctor, Final.table_at in H.
  all: mrun H.
  all: by eexists.
Qed.

(** C5.  A copy that fails leaves its destination fit for its
    destructor.  The copy operation of every table writes the destination
    only once the new object exists, so that when it throws, no storage
    and no heap block has changed.  And when the copy construction of a
    storage fails, the storage under construction is left with the table
    pointer of the empty state that its member initialiser gave it: its
    destructor does nothing and succeeds, and nothing else has changed. *)
Theorem failed_copy_construction_is_safe :
  (forall (p : methods_ptr) (t : methods_tbl R Args Obj) (s0 s s' : state Obj)
          (to from : loc) (e : exn),
     Final.table_at cls p s0 = (Ok t, s0) ->
     copy t to from s = (Throw e, s') ->
     stores s' = stores s /\ heap s' = heap s)
  /\ (forall (s s' : state Obj) (this other : loc) (e : exn),
       Final.storage_copy_ctor cls this other s = (Throw e, s') ->
       stores s' !! this = Some (mk_storage Indeterminate Final.get_empty_methods)
       /\ Final.storage_dtor cls this s' = (Ok tt, s')
       /\ heap s' = heap s
       /\ (forall l, l <> this -> stores s' !! l = stores s !! l)).
Proof.
  split; [apply copy_throw_frame|].
  intros s s' this other e H.
  apply copy_ctor_throw_state in H as [orc ->]. simpl.
  repeat split.
  - by rewrite lookup_insert_eq.
  - unfold Final.storage_dtor, noexcept, bind, load. simpl.
    by rewrite lookup_insert_eq.
  - intros l Hl. by rewrite lookup_insert_ne.
Qed.

(** ** Move and destroy *)

Lemma noexcept_never_throws {A} (m : M Obj A) (s : state Obj) (e : exn) :
  fst (noexcept m s) <> Throw e.
Proof. unfold noexcept. destruct (m s) as [[]]; done. Qed.

(** A type that [is_small_v] admits has a move constructor that is
    declared not to throw, so that its move construction does not throw;
    and from no operation table (empty-state, small-object, large-object)
    does the move or the destroy operation leave by an exception,
    whatever the state it is run in.  This does not say that the
    operation returns: an exception inside a [noexcept] move ends the
    program (see the runs on concrete callables). *)
Lemma move_and_destroy_never_throw :
  (forall T, is_small_v T = true ->
     is_nothrow_move_constructible (cls T) = true
     /\ forall o e, move_construct (cls T) o <> Throw e)
  /\ (forall p t s0 to from (s : state Obj) e,
       Final.table_at cls p s0 = (Ok t, s0) ->
       fst (move t to from s) <> Throw e)
  /\ (forall p t s0 stg (s : state Obj) e,
       Final.table_at cls p s0 = (Ok t, s0) ->
       fst (destroy t stg s) <> Throw e).
Proof.
  split; [|split].
  - intros T H. unfold Final.is_small_v in H.
    apply andb_prop in H as [_ H]. split; [done|].
    intros o e. unfold move_construct. rewrite H.
    by destruct (move_ctor (cls T) o).
  - intros p t s0 to from s e Ht.
    destruct p as [|T [|]|]; simpl in Ht; unfold ret, ub in Ht; simplify_eq;
      apply noexcept_never_throws.
  - intros p t s0 stg s e Ht.
    destruct p as [|T [|]|]; simpl in Ht; unfold ret, ub in Ht; simplify_eq; simpl.
    + done.
    + destruct (bind _ _ s) as [r s'] eqn:H. simpl. intros ->. mrun H.
    + destruct (bind _ _ s) as [r s'] eqn:H. simpl. intros ->. mrun H.
Qed.

(** C4, as the header has it.  After [e] is move-constructed from the
    non-empty container [c], [e] holds the callable and answers a call
    as [c] did before.  When the type is large, [c] is then empty:
    [operator bool] is [false] and a call throws [bad_function_call].
    When the type is small, [c] is not reset: it keeps its table
    pointer and its object, and [operator bool] is still [true]. *)
Theorem move_transfers (s s' : state Obj) (c e : loc) (T : tid) (o : Obj)
    (args : Args) :
  regular (cls T) ->
  holds s c (Some (T, o)) ->
  e <> c ->
  Final.function_move_ctor cls e c s = (Ok tt, s') ->
  holds s' e (Some (T, o))
  /\ fst (function_call e args s') = fst (function_call c args s)
  /\ (is_small_v T = false ->
      holds s' c None
      /\ Final.function_bool c s' = (Ok false, s')
      /\ function_call c args s' = (Throw bad_function_call, s'))
  /\ (is_small_v T = true ->
      holds s' c (Some (T, o))
      /\ stores s' !! c = stores s !! c
      /\ Final.function_bool c s' = (Ok true, s')).
Proof.
  intros Hreg Hc Hne H.
  rewrite (call_held s c args T o Hc).
  unfold Final.function_move_ctor, Final.storage_move_ctor in H.
  inversion Hc as [|T' o' Hs Hb|T' a o' Hs Hb Ha]; subst.
  - mrun H. copied.
    rewrite !insert_insert_eq.
    match goal with |- holds ?st _ _ /\ _ => set (s' := st) end.
    assert (He : holds s' e (Some (T, o))).
    { apply Final.holds_small; [done|]. simpl. by rewrite lookup_insert_eq. }
    assert (Hc' : holds s' c (Some (T, o))).
    { apply Final.holds_small; [done|]. simpl. by rewrite lookup_insert_ne. }
    split; [done|]. split; [by apply call_held|]. split; [congruence|].
    intros _. split; [done|]. split; [simpl; by rewrite lookup_insert_ne|].
    by rewrite (bool_held _ _ _ Hc').
  - mrun H. rewrite !insert_insert_eq.
    match goal with |- holds ?st _ _ /\ _ => set (s' := st) end.
    assert (He : holds s' e (Some (T, o))).
    { eapply Final.holds_large; [done| |done]. simpl.
      rewrite lookup_insert_ne by done. by rewrite lookup_insert_eq. }
    assert (Hc' : holds s' c None).
    { eapply Final.holds_nothing. simpl. by rewrite lookup_insert_eq. }
    split; [done|]. split; [by apply call_held|]. split; [|congruence].
    intros _. split; [done|]. split; [by rewrite (bool_held _ _ _ Hc')|].
    eapply call_empty. simpl. by rewrite lookup_insert_eq.
Qed.

End FinalProperties.

(** * Properties of the copy-and-swap variant and of the draft *)

Section SwapProperties.
Context {R Args Obj : Type}.
Variable cls : tid -> callable R Args Obj.

(** Two maps are equal when they agree at every key; the keys to look at
    are those that the inserts name. *)
Ltac same_map :=
  apply map_eq; intros ?;
  repeat (rewrite lookup_insert; case_decide; simplify_eq);
  done.

(** [storage::swap] exchanges the contents of the two storages and
    touches nothing else. *)
Lemma swap_exchanges (s : state Obj) (a b : loc) (va vb : storage Obj) :
  stores s !! a = Some va ->
  stores s !! b = Some vb ->
  CopySwap.swap a b s =
    (Ok tt, mk_state (<[b := va]> (<[a := vb]> (stores s))) (heap s) (oracle s)).
Proof.
  intros Ha Hb. destruct va as [oa ma], vb as [ob mb].
  destruct (CopySwap.swap a b s) as [r s'] eqn:H. unfold CopySwap.swap in H.
  destruct (decide (a = b)) as [->|Hne]; mrun H.
  all: do 2 f_equal; same_map.
Qed.

(** [function::swap] of the draft does the same, in the other order. *)
Lemma draft_swap_exchanges (s : state Obj) (a b : loc) (va vb : storage Obj) :
  stores s !! a = Some va ->
  stores s !! b = Some vb ->
  Draft.swap a b s =
    (Ok tt, mk_state (<[b := va]> (<[a := vb]> (stores s))) (heap s) (oracle s)).
Proof.
  intros Ha Hb. destruct va as [oa ma], vb as [ob mb].
  destruct (Draft.swap a b s) as [r s'] eqn:H. unfold Draft.swap in H.
  destruct (decide (a = b)) as [->|Hne]; mrun H.
  all: do 2 f_equal; same_map.
Qed.

Lemma exchange_twice (m : gmap nat (storage Obj)) (a b : loc)
    (va vb : storage Obj) :
  m !! a = Some va ->
  m !! b = Some vb ->
  <[b := vb]> (<[a := va]> (<[b := va]> (<[a := vb]> m))) = m.
Proof.
  intros Ha Hb. apply map_eq. intros i.
  repeat (rewrite lookup_insert; case_decide; simplify_eq); done.
Qed.

Lemma exchanged_lookups (m : gmap nat (storage Obj)) (a b : loc)
    (va vb : storage Obj) :
  m !! a = Some va ->
  m !! b = Some vb ->
  <[b := va]> (<[a := vb]> m) !! a = Some vb
  /\ <[b := va]> (<[a := vb]> m) !! b = Some va.
Proof.
  intros Ha Hb. split.
  - rewrite lookup_insert. case_decide; simplify_eq; [done|].
    by rewrite lookup_insert_eq.
  - by rewrite lookup_insert_eq.
Qed.

(** C8.  [swap(a, b)] on two storages (the same one, possibly) succeeds,
    gives [a] what [b] had and [b] what [a] had, and changes no other
    storage, no heap block, and not the allocator: what one of them owned
    the other owns now, and nothing is owned twice or dropped.  A second
    [swap(a, b)] gives back the state before the first.  This holds for
    [storage::swap] of the copy-and-swap variant and for
    [function::swap] of the draft. *)
Theorem swap_is_involutive (s : state Obj) (a b : loc) (va vb : storage Obj) :
  stores s !! a = Some va ->
  stores s !! b = Some vb ->
  (exists s1,
     CopySwap.swap a b s = (Ok tt, s1)
     /\ stores s1 !! a = Some vb /\ stores s1 !! b = Some va
     /\ (forall l, l <> a -> l <> b -> stores s1 !! l = stores s !! l)
     /\ heap s1 = heap s /\ oracle s1 = oracle s
     /\ CopySwap.swap a b s1 = (Ok tt, s))
  /\ (exists s1,
        Draft.swap a b s = (Ok tt, s1)
        /\ stores s1 !! a = Some vb /\ stores s1 !! b = Some va
        /\ (forall l, l <> a -> l <> b -> stores s1 !! l = stores s !! l)
        /\ heap s1 = heap s /\ oracle s1 = oracle s
        /\ Draft.swap a b s1 = (Ok tt, s)).
Proof.
  intros Ha Hb.
  destruct (exchanged_lookups _ a b va vb Ha Hb) as [Ha1 Hb1].
  split; eexists; (split; [by (apply swap_exchanges || apply draft_swap_exchanges)|]).
  all: simpl; split; [done|]; split; [done|].
  all: split; [intros l Hla Hlb; by rewrite !lookup_insert_ne|].
  all: split; [done|]; split; [done|].
  - erewrite swap_exchanges; [|exact Ha1|exact Hb1]. simpl.
    rewrite exchange_twice by done. by destruct s.
  - erewrite draft_swap_exchanges; [|exact Ha1|exact Hb1]. simpl.
    rewrite exchange_twice by done. by destruct s.
Qed.

(** ** Copy assignment by copy-and-swap *)

(** X19.  The copy-and-swap assignment of the variant gives the strong
    guarantee: when it throws, no storage and no heap block has changed
    (the allocator has answered one request). *)
Lemma copy_and_swap_assign_strong (s s' : state Obj) (this rhs : loc) (e : exn) :
  CopySwap.storage_copy_assign cls this rhs s = (Throw e, s') ->
  stores s' = stores s /\ heap s' = heap s.
Proof.
  intros H. unfold CopySwap.storage_copy_assign in H.
  destruct (decide (this <> rhs)) as [Hne|]; [|by mrun H].
  unfold scoped in H.
  set (temp := fresh (dom (stores s))) in *.
  assert (Htemp : stores s !! temp = None).
  { apply not_elem_of_dom, is_fresh. }
  destruct (CopySwap.storage_copy_ctor cls temp rhs s) as [[[]|e'|c] s1] eqn:Hctor.
  - destruct (CopySwap.swap temp this s1) as [[[]|e2|c] s2] eqn:Hswap.
    + destruct (CopySwap.storage_dtor cls temp s2) as [[[]|e3|c] s3] eqn:Hd; try done.
      exfalso. unfold CopySwap.storage_dtor in Hd.
      pose proof (f_equal fst Hd) as Hd1. simpl in Hd1.
      unfold noexcept in Hd1. by destruct (bind _ _ s2) as [[] ?].
    + exfalso. unfold CopySwap.swap in Hswap.
      pose proof (f_equal fst Hswap) as Hd1. simpl in Hd1.
      unfold noexcept in Hd1. by destruct (bind _ _ s1) as [[] ?].
    + done.
  - injection H as <- <-.
    unfold CopySwap.storage_copy_ctor, CopySwap.table_at in Hctor.
    destruct (decide (temp = rhs)) as [<-|Hne'].
    + mrun Hctor.
    + mrun Hctor.
      all: by rewrite delete_insert_id.
  - done.
Qed.

(** ** The move operation of the draft's small-object table *)

(** In the draft, moving a small object resets the source: after the
    move its table pointer is that of the empty state. *)
Lemma draft_small_move_resets (s s' : state Obj) (T : tid) (to from : loc) :
  to <> from ->
  Draft.small_move cls T to from s = (Ok tt, s') ->
  exists b, stores s' !! from = Some (mk_storage b Draft.get_empty_methods).
Proof.
  intros Hne H. unfold Draft.small_move in H. mrun H.
  all: eexists; by rewrite lookup_insert_eq.
Qed.
End SwapProperties.

(** * The header on concrete callables *)

Section Runs.
Import Examples.

Local Abbreviation function_call := (Final.function_call cls).
Local Abbreviation function_copy_ctor := (Final.function_copy_ctor cls).
Local Abbreviation function_move_ctor := (Final.function_move_ctor cls).
Local Abbreviation function_copy_assign := (Final.function_copy_assign cls).
Local Abbreviation function_dtor := (Final.function_dtor cls).
Local Abbreviation holds := (Final.holds cls sizeof_ptr alignof_ptr).

Lemma examples_regular (T : tid) : regular (cls T).
Proof.
  do 6 (destruct T as [|T]; [split; simpl; intros; congruence|]).
  split; simpl; intros; congruence.
Qed.

Example classification :
  map (Final.is_small_v cls sizeof_ptr alignof_ptr)
    [small_counter; large_counter; small_adder; large_adder; small_fragile;
     large_fragile; pointer_sized_shaky]
  = [true; false; true; false; true; false; false].
Proof. reflexivity. Qed.

(** The variant classifies by size and alignment alone: it takes a type
    whose move constructor throws for a small one. *)
Example variant_classification :
  map (CopySwap.is_small_v cls sizeof_ptr alignof_ptr)
    [small_counter; large_counter; small_adder; large_adder; small_fragile;
     large_fragile; pointer_sized_shaky]
  = [true; false; true; false; true; false; true].
Proof. reflexivity. Qed.

(** A small and a large adder of 37, called with 5. *)
Example adders :
  fst (function_call 0%nat 5 (make small_adder 0%nat 37 start)) = Ok 42
  /\ fst (function_call 0%nat 5 (make large_adder 0%nat 37 start)) = Ok 42.
Proof. split; by vm_compute. Qed.

(** ** Copy assignment with a rollback that fails *)

(** C2.  Copy assignment [c = rhs] of the current header, when the
    allocator serves the backup copy of [c] and then refuses both the
    copy of [rhs] and the copy that is to restore [c]: [bad_alloc]
    leaves the assignment, and [c], which answered calls before, is left
    with the table pointer of its old type and a pointer to the block
    that the assignment has deleted.  A call on it and its destructor
    are undefined. *)
Theorem copy_assign_rollback_can_fail :
  let s := allocator [true; false; false] two_large in
  let s' := after (function_copy_assign 0%nat 1%nat) s in
  holds s 0%nat (Some (large_adder, 10))
  /\ holds s 1%nat (Some (large_counter, 20))
  /\ fst (function_call 0%nat 5 s) = Ok 15
  /\ fst (function_copy_assign 0%nat 1%nat s) = Throw bad_alloc
  /\ stores s' !! 0%nat = stores s !! 0%nat
  /\ stores s !! 0%nat =
       Some (mk_storage (Pointer (heap_block 1)) (Final.get_methods large_adder false))
  /\ heap s' !! 1%positive = None
  /\ fst (function_call 0%nat 5 s') = Crash undefined_behaviour
  /\ fst (function_dtor 0%nat s') = Crash undefined_behaviour.
Proof.
  simpl. split; [|split].
  - eapply Final.holds_large; by vm_compute.
  - eapply Final.holds_large; by vm_compute.
  - repeat split; by vm_compute.
Qed.

(** With an allocator that does not fail, [c = rhs] makes [c] hold a
    copy of what [rhs] holds, in a block of its own, and gives back the
    block [c] had. *)
Example copy_assign_succeeds :
  let s' := after (function_copy_assign 0%nat 1%nat) two_large in
  fst (function_copy_assign 0%nat 1%nat two_large) = Ok tt
  /\ holds s' 0%nat (Some (large_counter, 20))
  /\ holds s' 1%nat (Some (large_counter, 20))
  /\ stores s' !! 0%nat <> stores s' !! 1%nat
  /\ size (heap s') = 2%nat.
Proof.
  simpl. split; [by vm_compute|].
  split; [eapply Final.holds_large; by vm_compute|].
  split; [eapply Final.holds_large; by vm_compute|].
  split; by vm_compute.
Qed.

(** When only the copy of [rhs] is refused, the rollback puts a copy of
    the old value back. *)
Example copy_assign_rolls_back :
  let s := allocator [true; false; true] two_large in
  let s' := after (function_copy_assign 0%nat 1%nat) s in
  fst (function_copy_assign 0%nat 1%nat s) = Throw bad_alloc
  /\ holds s' 0%nat (Some (large_adder, 10))
  /\ holds s' 1%nat (Some (large_counter, 20))
  /\ size (heap s') = 2%nat.
Proof.
  simpl. split; [by vm_compute|].
  split; [eapply Final.holds_large; by vm_compute|].
  split; [eapply Final.holds_large; by vm_compute|].
  by vm_compute.
Qed.

(** The same assignment in the copy-and-swap variant: the exception of
    the one copy leaves [c] as it was. *)
Example copy_and_swap_assign_keeps_target :
  let s := allocator [false] two_large in
  let s' := after (CopySwap.storage_copy_assign cls 0%nat 1%nat) s in
  fst (CopySwap.storage_copy_assign cls 0%nat 1%nat s) = Throw bad_alloc
  /\ stores s' = stores s /\ heap s' = heap s
  /\ fst (CopySwap.function_call cls 0%nat 5 s') = Ok 15.
Proof. repeat split; by vm_compute. Qed.

(** ** Copy construction that fails, in the two texts *)

(** In the variant the member [methods] has no initialiser: a copy
    construction that fails leaves an indeterminate table pointer in the
    storage under construction (which, the constructor having thrown, is
    never destroyed). *)
Example variant_failed_copy_leaves_wild :
  let s := allocator [false]
             (after (CopySwap.function_ctor cls sizeof_ptr alignof_ptr
                       large_counter 0%nat 10) start) in
  let s' := after (CopySwap.storage_copy_ctor cls 1%nat 0%nat) s in
  fst (CopySwap.storage_copy_ctor cls 1%nat 0%nat s) = Throw bad_alloc
  /\ stores s' !! 1%nat = Some (mk_storage Indeterminate wild).
Proof. split; by vm_compute. Qed.

(** ** Moving out of a small container *)

(** C4 fails on the current header: after [e] (at 1) is move-constructed
    from the container [c] (at 0) that holds a small counter,
    [operator bool] of [c] is [true] and a call on [c] returns 11; it
    does not throw [bad_function_call]. *)
Lemma small_source_is_not_reset :
  let s := make small_counter 0%nat 10 start in
  let s' := after (function_move_ctor 1%nat 0%nat) s in
  fst (function_move_ctor 1%nat 0%nat s) = Ok tt
  /\ Final.function_bool 0%nat s' = (Ok true, s')
  /\ fst (function_call 0%nat 0 s') = Ok 11
  /\ fst (function_call 0%nat 0 s') <> Throw bad_function_call.
Proof. repeat split; by vm_compute. Qed.

(** C7.  The move operation of the small-object table can fail.  A type
    of pointer size whose move constructor is [noexcept] and whose copy
    constructor throws is admitted by [is_small_v], and constructing a
    container from it runs its move constructor, which succeeds.  But
    the move operation of the table reads its source through
    [get_small_obj], a [const T &], so that it runs the copy constructor:
    that throws inside the [noexcept] operation, and move construction
    and move assignment of the container end in [std::terminate].  The
    move operation of [part_001], which reads the source through a
    [T &], runs the move constructor and succeeds on the same input. *)
Theorem small_move_can_terminate :
  let s := make small_fragile 0%nat 10 start in
  let s1 := after (Final.storage_default_ctor 1%nat) s in
  Final.is_small_v cls sizeof_ptr alignof_ptr small_fragile = true
  /\ is_nothrow_move_constructible (cls small_fragile) = true
  /\ move_construct (cls small_fragile) 10 = Ok (10, 0)
  /\ copy_ctor (cls small_fragile) 10 = Throw (thrown 7)
  /\ holds s 0%nat (Some (small_fragile, 10))
  /\ fst (function_call 0%nat 5 s) = Ok 15
  /\ fst (move (Final.small_methods_table cls small_fragile) 1%nat 0%nat s1)
     = Crash terminate_called
  /\ fst (function_move_ctor 1%nat 0%nat s) = Crash terminate_called
  /\ fst (Final.function_move_assign cls 1%nat 0%nat
            (after (Final.function_default_ctor 1%nat) s))
     = Crash terminate_called
  /\ fst (Draft.small_move cls small_fragile 1%nat 0%nat s1) = Ok tt.
Proof.
  simpl. split; [done|]. split; [done|]. split; [done|]. split; [done|].
  split; [eapply Final.holds_small; by vm_compute|].
  repeat split; by vm_compute.
Qed.

(** In the copy-and-swap variant a construction whose body throws
    destroys the member [stg] with its table pointer never set. *)
Example variant_failed_construction_is_undefined :
  fst (CopySwap.function_ctor cls sizeof_ptr alignof_ptr large_counter 0%nat 10
         (allocator [false] start))
  = Crash undefined_behaviour.
Proof. by vm_compute. Qed.

(** ** The theorems at concrete inputs

    Each theorem above that has premises, applied to a run of the header
    on the callables of [Examples], the premises checked by computation. *)

Lemma construct_then_call_witness :
  regular (cls large_adder)
  /\ Final.function_ctor cls sizeof_ptr alignof_ptr large_adder 0%nat 37 start
     = (Ok tt, make large_adder 0%nat 37 start)
  /\ fst (function_call 0%nat 5 (make large_adder 0%nat 37 start))
     = fst (call (cls large_adder) 37 5).
Proof.
  assert (H1 : regular (cls large_adder)) by apply examples_regular.
  assert (H2 : Final.function_ctor cls sizeof_ptr alignof_ptr large_adder 0%nat 37 start
               = (Ok tt, make large_adder 0%nat 37 start)) by (vm_compute; reflexivity).
  split; [exact H1|]. split; [exact H2|].
  exact (proj2 (construct_then_call cls sizeof_ptr alignof_ptr _ _ _ _ _ 5 H1 H2)).
Defined.

Lemma call_on_empty_witness :
  let s := after (Final.function_default_ctor 0%nat) start in
  Final.function_bool 0%nat s = (Ok false, s)
  /\ function_call 0%nat 5 s = (Throw bad_function_call, s).
Proof.
  simpl.
  assert (H1 : Final.function_bool 0%nat (after (Final.function_default_ctor 0%nat) start)
               = (Ok false, after (Final.function_default_ctor 0%nat) start))
    by (vm_compute; reflexivity).
  split; [exact H1|].
  exact (proj1 (call_on_empty cls _ 0%nat 5 H1)).
Defined.

Lemma move_transfers_witness :
  let s := make small_counter 0%nat 10 start in
  let s' := after (function_move_ctor 1%nat 0%nat) s in
  holds s 0%nat (Some (small_counter, 10))
  /\ function_move_ctor 1%nat 0%nat s = (Ok tt, s')
  /\ holds s' 1%nat (Some (small_counter, 10))
  /\ fst (function_call 1%nat 0 s') = fst (function_call 0%nat 0 s).
Proof.
  simpl.
  assert (H1 : holds (make small_counter 0%nat 10 start) 0%nat (Some (small_counter, 10)))
    by (apply Final.holds_small; vm_compute; reflexivity).
  assert (H2 : function_move_ctor 1%nat 0%nat (make small_counter 0%nat 10 start)
               = (Ok tt, after (function_move_ctor 1%nat 0%nat)
                           (make small_counter 0%nat 10 start)))
    by (vm_compute; reflexivity).
  assert (H3 : 1%nat <> 0%nat) by discriminate.
  split; [exact H1|]. split; [exact H2|].
  destruct (move_transfers cls sizeof_ptr alignof_ptr _ _ _ _ _ _ 0
              (examples_regular small_counter) H1 H3 H2) as (Ha & Hb & _).
  exact (conj Ha Hb).
Defined.

Lemma failed_copy_construction_is_safe_witness :
  let s := allocator [false] (make large_counter 0%nat 10 start) in
  let s' := after (Final.storage_copy_ctor cls 1%nat 0%nat) s in
  Final.storage_copy_ctor cls 1%nat 0%nat s = (Throw bad_alloc, s')
  /\ Final.storage_dtor cls 1%nat s' = (Ok tt, s')
  /\ copy (Final.large_methods_table cls large_counter) 0%nat 0%nat s
     = (Throw bad_alloc, allocator [] s)
  /\ stores (allocator [] s) = stores s.
Proof.
  simpl.
  assert (H1 : Final.storage_copy_ctor cls 1%nat 0%nat
                 (allocator [false] (make large_counter 0%nat 10 start))
               = (Throw bad_alloc,
                  after (Final.storage_copy_ctor cls 1%nat 0%nat)
                    (allocator [false] (make large_counter 0%nat 10 start))))
    by (vm_compute; reflexivity).
  assert (H2 : copy (Final.large_methods_table cls large_counter) 0%nat 0%nat
                 (allocator [false] (make large_counter 0%nat 10 start))
               = (Throw bad_alloc,
                  allocator [] (allocator [false] (make large_counter 0%nat 10 start))))
    by (vm_compute; reflexivity).
  destruct (failed_copy_construction_is_safe cls) as [Hgen Hctor].
  split; [exact H1|].
  split; [exact (proj1 (proj2 (Hctor _ _ _ _ _ H1)))|].
  split; [exact H2|].
  exact (proj1 (Hgen (object_table large_counter false) _ start _ _ _ _ _ eq_refl H2)).
Defined.

Lemma target_exact_witness :
  let s := make small_counter 0%nat 10 start in
  holds s 0%nat (Some (small_counter, 10))
  /\ exists p, Final.function_target cls sizeof_ptr alignof_ptr large_counter 0%nat s
               = (Ok p, s)
               /\ p = Final.target_null.
Proof.
  simpl.
  assert (H1 : holds (make small_counter 0%nat 10 start) 0%nat (Some (small_counter, 10)))
    by (apply Final.holds_small; vm_compute; reflexivity).
  split; [exact H1|].
  destruct (target_exact cls sizeof_ptr alignof_ptr _ _ _ large_counter H1)
    as (p & v & Ht & _ & _ & _ & Hn & _).
  exists p. split; [exact Ht|].
  apply (Hn small_counter 10); [reflexivity|discriminate].
Defined.

Lemma swap_is_involutive_witness :
  let va := mk_storage (Pointer (heap_block 1)) (object_table large_adder false) in
  let vb := mk_storage (Pointer (heap_block 2)) (object_table large_counter false) in
  stores two_large !! 0%nat = Some va
  /\ stores two_large !! 1%nat = Some vb
  /\ exists s1, CopySwap.swap 0%nat 1%nat two_large = (Ok tt, s1)
                /\ CopySwap.swap 0%nat 1%nat s1 = (Ok tt, two_large).
Proof.
  simpl.
  assert (H1 : stores two_large !! 0%nat
               = Some (mk_storage (Pointer (heap_block 1)) (object_table large_adder false)))
    by (vm_compute; reflexivity).
  assert (H2 : stores two_large !! 1%nat
               = Some (mk_storage (Pointer (heap_block 2)) (object_table large_counter false)))
    by (vm_compute; reflexivity).
  split; [exact H1|]. split; [exact H2|].
  destruct (proj1 (swap_is_involutive two_large 0%nat 1%nat _ _ H1 H2))
    as (s1 & Hs & _ & _ & _ & _ & _ & Hback).
  exists s1. exact (conj Hs Hback).
Defined.

Lemma call_keeps_routing_witness :
  let s := make large_counter 0%nat 10 start in
  let s' := after (function_call 0%nat 0) s in
  function_call 0%nat 0 s = (Ok 11, s')
  /\ exists v v', stores s !! 0%nat = Some v /\ stores s' !! 0%nat = Some v'
                  /\ methods v' = methods v.
Proof.
  simpl.
  assert (H1 : function_call 0%nat 0 (make large_counter 0%nat 10 start)
               = (Ok 11, after (function_call 0%nat 0) (make large_counter 0%nat 10 start)))
    by (vm_compute; reflexivity).
  assert (H2 : forall c : crash, @Ok Z 11 <> Crash c) by discriminate.
  split; [exact H1|].
  destruct (call_keeps_routing cls _ _ _ _ _ H1 H2) as (v & v' & Ha & Hb & Hc & _).
  exists v, v'. exact (conj Ha (conj Hb Hc)).
Defined.
End Runs.

(** * Further properties of the current header *)

(** The inversion [mrun], simplifying only the run in [H]. *)
Ltac mrun_in H :=
  repeat first
    [ progress simplify_eq
    | progress simpl in H
    | progress unfold bind, ret, throw, ub, lift, noexcept, try_catch, load, set_obj,
        set_methods, default_init, update, deref, delete_, new_, release,
        with_stores, with_heap, with_oracle,
        Final.get_small_obj, Final.get_large_obj,
        CopySwap.as_object, CopySwap.as_pointer, Draft.as_object in H
    | progress rewrite ?lookup_insert_eq in H
    | rewrite lookup_insert_ne in H by done
    | match type of H with
      | context [match ?x with _ => _ end] =>
          lazymatch x with
          | context [match _ with _ => _ end] => fail
          | _ => destruct x eqn:?
          end
      end ].

(** Lookups in a map built by inserts and deletes at keys known to be
    equal or different. *)
Ltac lookups :=
  simpl;
  repeat first
    [ rewrite lookup_insert_eq
    | rewrite lookup_insert_ne by (done || congruence)
    | rewrite lookup_delete_ne by (done || congruence)
    | rewrite lookup_delete_eq ].

(** Two maps built by inserts and deletes are equal: compare them key by
    key. *)
Ltac same_maps :=
  apply map_eq; intros ?;
  repeat first
    [ rewrite lookup_delete
    | rewrite lookup_insert
    | match goal with
      | |- context [decide ?P] => destruct (decide P); simplify_eq
      end ];
  first [done | congruence].

(** Every copy made by a type that copies by value is its source; the
    equations of the copy constructor are kept. *)
Ltac copies :=
  repeat match goal with
  | Hx : copy_ctor ?k ?o = Ok ?o' |- _ =>
      lazymatch o' with
      | o => fail
      | _ => assert (o' = o) by (eapply copy_preserves; [|exact Hx]; done); subst o'
      end
  end.

(** Name the addresses that the allocator returned, innermost first, each
    with the fact that it was free in the heap it was taken from, split by
    the inserts and deletes that built that heap. *)
Ltac split_lookup Hf :=
  repeat first
    [ rewrite lookup_delete in Hf;
      match type of Hf with
      | context [decide ?P] => destruct (decide P); simplify_eq
      end
    | rewrite lookup_insert in Hf;
      match type of Hf with
      | context [decide ?P] => destruct (decide P); simplify_eq
      end ].

Ltac name_fresh :=
  repeat match goal with
  | |- context [fresh (dom ?h)] =>
      lazymatch h with
      | context [fresh _] => fail
      | _ => idtac
      end;
      let Hf := fresh "Hfree" in
      let f := fresh "a" in
      assert (Hf : h !! fresh (dom h) = None) by apply not_elem_of_dom, is_fresh;
      remember (fresh (dom h)) as f eqn:Ef in *; clear Ef;
      split_lookup Hf
  end.

(** Settle the lookups that were left in the hypotheses. *)
Ltac settle :=
  repeat match goal with
  | Hx : context [(<[_:=_]> _) !! _] |- _ =>
      rewrite lookup_insert in Hx;
      match type of Hx with
      | context [decide ?P] => destruct (decide P); simplify_eq
      end
  | Hx : context [delete _ _ !! _] |- _ =>
      rewrite lookup_delete in Hx;
      match type of Hx with
      | context [decide ?P] => destruct (decide P); simplify_eq
      end
  end;
  try congruence.

(** Two lookups in maps built by inserts and deletes agree. *)
Ltac framing :=
  simpl;
  repeat first
    [ rewrite lookup_delete
    | rewrite lookup_insert
    | match goal with
      | |- context [decide ?P] => destruct (decide P); simplify_eq
      end ];
  first [done | congruence].

(** A goal [apart s c d] for an explicit state [s]. *)
Ltac parting :=
  unfold apart, block_of; lookups;
  repeat match goal with
         | Hx : stores _ !! _ = Some _ |- _ => rewrite Hx
         end;
  simpl;
  first
    [ intros ? ? ?; simplify_eq; congruence
    | let a := fresh "a" in
      let H1 := fresh in
      let H2 := fresh in
      intros a H1 H2;
      match goal with
      | Hp : forall b : positive, _ -> _ <> _ |- _ =>
          apply (Hp a); first [done | congruence]
      end ].

(** A goal [holds s l x] for an explicit state [s]. *)
Ltac holding :=
  first
    [ eapply Final.holds_nothing; lookups; done
    | eapply Final.holds_small; [done | lookups; done]
    | eapply Final.holds_large; [done | lookups; done | lookups; done] ].

Section FinalLifecycle.
Context {R Args Obj : Type}.
Variable cls : tid -> callable R Args Obj.
Variables sizeof_ptr alignof_ptr : Z.

Local Abbreviation is_small_v := (Final.is_small_v cls sizeof_ptr alignof_ptr).
Local Abbreviation function_ctor := (Final.function_ctor cls sizeof_ptr alignof_ptr).
Local Abbreviation function_call := (Final.function_call cls).
Local Abbreviation function_dtor := (Final.function_dtor cls).
Local Abbreviation holds := (Final.holds cls sizeof_ptr alignof_ptr).

(** ** The state that [function(T val)] builds *)

Lemma function_ctor_small (s : state Obj) (T : tid) (this : loc) (val : Obj) :
  is_small_v T = true ->
  function_ctor T this val s =
    match move_ctor (cls T) val with
    | Ok v =>
        (Ok tt, mk_state (<[this := mk_storage (InPlace T (fst v)) (object_table T true)]>
                            (stores s)) (heap s) (oracle s))
    | Throw _ =>
        (Crash terminate_called,
         mk_state (<[this := mk_storage Indeterminate empty_table]> (stores s))
           (heap s) (oracle s))
    | Crash c =>
        (Crash c,
         mk_state (<[this := mk_storage Indeterminate empty_table]> (stores s))
           (heap s) (oracle s))
    end.
Proof.
  intros Hs. pose proof Hs as Hn. unfold Final.is_small_v in Hn.
  apply andb_prop in Hn as [_ Hn].
  unfold Final.function_ctor, Final.storage_default_ctor, default_init, bind, lift,
    move_construct, set_obj, set_methods, with_stores, Final.get_methods,
    Final.get_empty_methods.
  rewrite Hs, Hn. simpl.
  destruct (move_ctor (cls T) val) as [v| |]; simpl; [|done|done].
  rewrite lookup_insert_eq. simpl. rewrite lookup_insert_eq. simpl.
  by rewrite !insert_insert_eq.
Qed.

Lemma function_ctor_large_ok (s s' : state Obj) (T : tid) (this : loc) (val : Obj) :
  is_small_v T = false ->
  function_ctor T this val s = (Ok tt, s') ->
  exists o',
    copy_ctor (cls T) val = Ok o'
    /\ s' = mk_state
              (<[this := mk_storage (Pointer (heap_block (fresh (dom (heap s)))))
                           (object_table T false)]> (stores s))
              (<[fresh (dom (heap s)) := (T, o')]> (heap s))
              (tail (oracle s)).
Proof.
  intros Hs H. unfold Final.function_ctor, Final.storage_default_ctor in H.
  rewrite Hs in H. mrun H.
  all: eexists; split; [done|]; by rewrite !insert_insert_eq.
Qed.

Lemma function_ctor_throw (s s' : state Obj) (T : tid) (this : loc) (val : Obj)
    (e : exn) :
  function_ctor T this val s = (Throw e, s') ->
  is_small_v T = false
  /\ exists orc,
       s' = mk_state (<[this := mk_storage Indeterminate empty_table]> (stores s))
              (heap s) orc.
Proof.
  intros H. destruct (is_small_v T) eqn:Hs.
  - rewrite function_ctor_small in H by done.
    by destruct (move_ctor (cls T) val).
  - split; [done|]. unfold Final.function_ctor, Final.storage_default_ctor in H.
    rewrite Hs in H. mrun H; by eexists.
Qed.

(** ** Calls *)

(** X1.  A call on a container that holds the callable [o] returns what
    [o] returns (or throws what it throws) and leaves the container
    holding [o] in the state that the call left it in.  The call obtains
    and gives back no heap block and asks nothing of the allocator. *)
Theorem call_steps_callable (s : state Obj) (this : loc) (T : tid) (o : Obj)
    (args : Args) :
  holds s this (Some (T, o)) ->
  exists s',
    function_call this args s = (fst (call (cls T) o args), s')
    /\ holds s' this (Some (T, snd (call (cls T) o args)))
    /\ dom (heap s') = dom (heap s)
    /\ oracle s' = oracle s
    /\ (forall l, l <> this -> stores s' !! l = stores s !! l).
Proof.
  intros H. inversion H as [|T' o' Hs Hb|T' a o' Hs Hb Ha]; subst.
  - eexists. split; [by apply call_small|].
    split; [apply Final.holds_small; [done|]; simpl; by rewrite lookup_insert_eq|].
    repeat split; try done. intros l Hl. simpl. by rewrite lookup_insert_ne.
  - eexists. split; [by eapply call_large|].
    split; [eapply Final.holds_large; [done|done|]; simpl; by rewrite lookup_insert_eq|].
    repeat split; try done. simpl. by apply dom_insert_lookup_L.
Qed.

(** X2.  [operator bool] of a container answers [true] exactly when the
    container holds a callable, and changes nothing. *)
Theorem operator_bool_tells_emptiness (s : state Obj) (this : loc)
    (x : option (tid * Obj)) :
  holds s this x ->
  exists b,
    Final.function_bool this s = (Ok b, s)
    /\ (b = true <-> exists T o, x = Some (T, o))
    /\ (b = false <-> x = None).
Proof.
  unfold Final.function_bool, bind, load, ret. intros H.
  inversion H as [b Hb|T o Hs Hb|T a o Hs Hb Ha]; subst; rewrite Hb; simpl.
  - exists false. split; [done|]. split; split; try done. by intros (? & ? & ?).
  - exists true. split; [done|]. split; split; try done. eauto.
  - exists true. split; [done|]. split; split; try done. eauto.
Qed.

(** ** Construction *)

(** X3.  Constructing a container from a callable of a small type never
    throws, and when it succeeds the container holds the object that the
    move constructor made, in its buffer: the heap and the allocator are
    as before. *)
Theorem small_construction_uses_no_heap (s : state Obj) (T : tid) (this : loc)
    (val : Obj) :
  is_small_v T = true ->
  (forall e, fst (function_ctor T this val s) <> Throw e)
  /\ (forall s', function_ctor T this val s = (Ok tt, s') ->
        heap s' = heap s /\ oracle s' = oracle s
        /\ exists o' r, move_ctor (cls T) val = Ok (o', r)
                        /\ holds s' this (Some (T, o'))).
Proof.
  intros Hs. rewrite function_ctor_small by done.
  destruct (move_ctor (cls T) val) as [[o' r]| |] eqn:Hm; simpl.
  all: split; [done|]; intros s' [= <-]; simpl.
  repeat split. exists o', r. split; [done|].
  apply Final.holds_small; [done|]. simpl. by rewrite lookup_insert_eq.
Qed.

(** X4.  Constructing a container from a callable of a large type asks
    the allocator for exactly one block: when it succeeds the heap has
    one block more, which holds the copy of the callable, and the
    container holds that copy. *)
Theorem large_construction_allocates_once (s s' : state Obj) (T : tid)
    (this : loc) (val : Obj) :
  is_small_v T = false ->
  function_ctor T this val s = (Ok tt, s') ->
  exists a o',
    copy_ctor (cls T) val = Ok o'
    /\ heap s !! a = None
    /\ heap s' = <[a := (T, o')]> (heap s)
    /\ block_of s' this = Some a
    /\ holds s' this (Some (T, o'))
    /\ oracle s' = tail (oracle s).
Proof.
  intros Hs H. apply function_ctor_large_ok in H as (o' & Hc & ->); [|done].
  exists (fresh (dom (heap s))), o'. split; [done|].
  split; [apply not_elem_of_dom, is_fresh|]. split; [done|].
  split; [unfold block_of; simpl; by rewrite lookup_insert_eq|].
  split; [|done].
  eapply Final.holds_large; [done| |]; simpl; by rewrite lookup_insert_eq.
Qed.

(** X5.  A construction that throws is that of a large type (the
    allocation failed, or the copy constructor threw).  It leaves no heap
    block behind, and the table pointer it leaves is that of the empty
    state: none was set for the callable. *)
Theorem failed_construction_leaves_nothing (s s' : state Obj) (T : tid)
    (this : loc) (val : Obj) (e : exn) :
  function_ctor T this val s = (Throw e, s') ->
  is_small_v T = false
  /\ heap s' = heap s
  /\ stores s' !! this = Some (mk_storage Indeterminate Final.get_empty_methods)
  /\ (forall l, l <> this -> stores s' !! l = stores s !! l).
Proof.
  intros H. apply function_ctor_throw in H as (Hs & orc & ->).
  split; [done|]. split; [done|]. simpl.
  split; [by rewrite lookup_insert_eq|]. intros l Hl. by rewrite lookup_insert_ne.
Qed.

(** X6.  After a container is constructed from a callable of type [T],
    [target<T>()] returns a pointer to the object it holds: the address of
    its own buffer when [T] is small, the address of the block that the
    construction allocated when [T] is large.  [target<U>()] is null for
    every other type [U]. *)
Theorem construct_then_target (s s' : state Obj) (T : tid) (this : loc)
    (val : Obj) :
  function_ctor T this val s = (Ok tt, s') ->
  exists p o',
    Final.function_target cls sizeof_ptr alignof_ptr T this s' = (Ok p, s')
    /\ Final.points_to s' p T o'
    /\ (is_small_v T = true -> p = Final.target_buffer this)
    /\ (is_small_v T = false ->
          exists a, p = Final.target_heap a /\ heap s !! a = None)
    /\ (forall U, U <> T ->
          Final.function_target cls sizeof_ptr alignof_ptr U this s'
          = (Ok Final.target_null, s')).
Proof.
  intros H. destruct (is_small_v T) eqn:Hs.
  - rewrite function_ctor_small in H by done.
    destruct (move_ctor (cls T) val) as [[o' r]| |]; simplify_eq.
    exists (Final.target_buffer this), o'.
    unfold Final.function_target, bind, load, ret. simpl.
    rewrite lookup_insert_eq. simpl. rewrite Hs.
    rewrite decide_True by done.
    split; [reflexivity|]. split; [by eexists|]. split; [done|]. split; [done|].
    intros U HU. rewrite decide_False; [done|]. unfold Final.get_methods. congruence.
  - apply function_ctor_large_ok in H as (o' & Hc & ->); [|done].
    exists (Final.target_heap (fresh (dom (heap s)))), o'.
    unfold Final.function_target, Final.get_large_obj, bind, load, ret. simpl.
    rewrite lookup_insert_eq. simpl. rewrite Hs.
    rewrite decide_True by done. simpl. rewrite !lookup_insert_eq. simpl.
    split; [reflexivity|]. split; [done|]. split; [done|].
    split; [intros _; eexists; split; [done|]; apply not_elem_of_dom, is_fresh|].
    intros U HU. rewrite decide_False; [done|]. unfold Final.get_methods. congruence.
Qed.

(** ** Destruction *)

Lemma dtor_held (s : state Obj) (this : loc) (x : option (tid * Obj)) :
  holds s this x ->
  exists v,
    stores s !! this = Some v
    /\ function_dtor this s =
         (Ok tt,
          match obj v, methods v with
          | Pointer (heap_block a), object_table _ false => with_heap (delete a) s
          | _, object_table _ true =>
              with_stores (insert this (mk_storage Indeterminate (methods v))) s
          | _, _ => s
          end).
Proof.
  intros H. unfold Final.function_dtor, Final.storage_dtor.
  inversion H as [b Hb|T o Hs Hb|T a o Hs Hb Ha]; subst; eexists; (split; [done|]).
  - unfold noexcept, bind, load. rewrite Hb. simpl. by destruct b as [| |[|]].
  - unfold noexcept, bind, load. rewrite Hb. simpl.
    unfold Final.get_small_obj, bind, load, set_obj. rewrite Hb. simpl.
    rewrite decide_True by done. simpl. by rewrite Hb.
  - unfold noexcept, bind, load. rewrite Hb. simpl.
    unfold Final.get_large_obj, bind, load, delete_. rewrite Hb. simpl.
    rewrite Ha. by rewrite decide_True.
Qed.

(** X7.  The destructor of a container in a state that the header builds
    succeeds.  It gives back the heap block of a large callable and no
    other; for a small callable the heap is as before, and on an empty
    container (a moved-from one, whose buffer still has the pointer,
    included) it does nothing.  The table pointer is not reset, and no
    other storage changes. *)
Theorem destructor_releases (s : state Obj) (this : loc)
    (x : option (tid * Obj)) :
  holds s this x ->
  exists s' v v',
    function_dtor this s = (Ok tt, s')
    /\ stores s !! this = Some v /\ stores s' !! this = Some v'
    /\ methods v' = methods v
    /\ (x = None -> s' = s)
    /\ (forall T o, x = Some (T, o) -> is_small_v T = true -> heap s' = heap s)
    /\ (forall T o, x = Some (T, o) -> is_small_v T = false ->
          exists a, block_of s this = Some a /\ heap s' = delete a (heap s))
    /\ oracle s' = oracle s
    /\ (forall l, l <> this -> stores s' !! l = stores s !! l).
Proof.
  intros H. destruct (dtor_held s this x H) as (v & Hv & Hd).
  rewrite Hd. unfold block_of. rewrite Hv.
  inversion H as [b Hb|T o Hs Hb|T a o Hs Hb Ha]; subst;
    rewrite Hv in Hb; injection Hb as ->; simpl.
  - exists s, (mk_storage b Final.get_empty_methods), (mk_storage b Final.get_empty_methods).
    split; [by destruct b as [| |[|]]|]. repeat split; try done.
  - eexists _, _, _. split; [done|]. split; [done|]. simpl.
    split; [by rewrite lookup_insert_eq|]. repeat split; try done.
    + intros ?? [= <- <-] ?. congruence.
    + intros l Hl. by rewrite lookup_insert_ne.
  - eexists _, _, _. split; [done|]. split; [done|]. simpl.
    split; [done|]. repeat split; try done.
    + intros ?? [= <- <-] ?. congruence.
    + intros ?? [= <- <-] ?. eauto.
Qed.

(** X8.  Constructing a container and then destroying it leaves the heap
    as it was before the construction: the block of a large callable is
    given back, and a small callable never had one. *)
Theorem construct_then_destroy (s s1 : state Obj) (T : tid) (this : loc)
    (val : Obj) :
  function_ctor T this val s = (Ok tt, s1) ->
  exists s2, function_dtor this s1 = (Ok tt, s2) /\ heap s2 = heap s.
Proof.
  intros H. destruct (is_small_v T) eqn:Hs.
  - rewrite function_ctor_small in H by done.
    destruct (move_ctor (cls T) val) as [[o' r]| |]; simplify_eq.
    match goal with
    | |- context [function_dtor this ?st] =>
        destruct (dtor_held st this (Some (T, o'))) as (v & Hv & Hd)
    end.
    { apply Final.holds_small; [done|]. simpl. by rewrite lookup_insert_eq. }
    rewrite Hd. simpl in Hv. rewrite lookup_insert_eq in Hv. simplify_eq. simpl.
    by eexists.
  - apply function_ctor_large_ok in H as (o' & Hc & ->); [|done].
    match goal with
    | |- context [function_dtor this ?st] =>
        destruct (dtor_held st this (Some (T, o'))) as (v & Hv & Hd)
    end.
    { eapply Final.holds_large; [done| |]; simpl; by rewrite lookup_insert_eq. }
    rewrite Hd. simpl in Hv. rewrite lookup_insert_eq in Hv. simplify_eq. simpl.
    eexists. split; [done|]. simpl.
    apply delete_insert_id, not_elem_of_dom, is_fresh.
Qed.

(** ** Copying and moving *)

(** X9.  Copy construction and move construction from an empty container
    succeed and give an empty container; the source stays empty, and the
    heap and the allocator are not touched. *)
Theorem empty_copies_to_empty (s : state Obj) (c e : loc) :
  holds s c None ->
  e <> c ->
  (exists s', Final.function_copy_ctor cls e c s = (Ok tt, s')
              /\ holds s' e None /\ holds s' c None
              /\ heap s' = heap s /\ oracle s' = oracle s)
  /\ (exists s', Final.function_move_ctor cls e c s = (Ok tt, s')
                 /\ holds s' e None /\ holds s' c None
                 /\ heap s' = heap s /\ oracle s' = oracle s).
Proof.
  intros H Hne. inversion H as [b Hb| |]; subst.
  destruct (Final.function_copy_ctor cls e c s) as [r1 s1] eqn:H1.
  destruct (Final.function_move_ctor cls e c s) as [r2 s2] eqn:H2.
  unfold Final.function_copy_ctor, Final.storage_copy_ctor in H1.
  unfold Final.function_move_ctor, Final.storage_move_ctor in H2.
  mrun H1. mrun H2.
  split; eexists; (split; [done|]); simpl.
  all: rewrite insert_insert_eq.
  all: split; [eapply Final.holds_nothing; simpl; by rewrite lookup_insert_eq|].
  all: split; [eapply Final.holds_nothing; simpl; by rewrite lookup_insert_ne|].
  all: done.
Qed.

(** X10.  Copy construction from a container that holds a callable, when
    it returns: the new container holds the object that the copy
    constructor of the callable made, the source holds its callable as
    before, and the two share no heap block.  For a small type the heap
    and the allocator are as before; for a large type the heap has exactly
    one block more, the one of the copy. *)
Theorem copy_construction_duplicates (s s' : state Obj) (c e : loc) (T : tid)
    (o : Obj) :
  holds s c (Some (T, o)) ->
  e <> c ->
  Final.function_copy_ctor cls e c s = (Ok tt, s') ->
  exists o',
    copy_ctor (cls T) o = Ok o'
    /\ holds s' e (Some (T, o'))
    /\ holds s' c (Some (T, o))
    /\ apart s' c e
    /\ (is_small_v T = true -> heap s' = heap s /\ oracle s' = oracle s)
    /\ (is_small_v T = false ->
          exists a, heap s !! a = None /\ block_of s' e = Some a
                    /\ heap s' = <[a := (T, o')]> (heap s)
                    /\ oracle s' = tail (oracle s)).
Proof.
  intros Hc Hne H.
  unfold Final.function_copy_ctor, Final.storage_copy_ctor in H.
  inversion Hc as [|T' o0 Hs Hb|T' a o0 Hs Hb Ha]; subst.
  - mrun H. eexists. split; [done|]. rewrite !insert_insert_eq.
    split; [holding|]. split; [holding|]. split; [parting|].
    split; [done|]. congruence.
  - mrun H.
    all: name_fresh.
    all: eexists; split; [done|]; rewrite ?insert_insert_eq.
    all: split; [holding|]; split; [holding|]; split; [parting|].
    all: split; [congruence|]; intros _.
    all: eexists; split; [done|]; split; [unfold block_of; by lookups|done].
Qed.

(** X11.  Move construction from a container in a state that the header
    builds never throws and never touches the heap or the allocator.  From
    an empty container and from one that holds a large callable it always
    succeeds.  From one that holds a small callable it runs the copy
    constructor of the callable (the source is read through a
    [const T &]): it succeeds exactly when that constructor returns, and
    an exception of it ends the program. *)
Theorem move_construction_keeps_heap (s : state Obj) (c e : loc)
    (x : option (tid * Obj)) :
  holds s c x ->
  e <> c ->
  exists r s',
    Final.function_move_ctor cls e c s = (r, s')
    /\ heap s' = heap s /\ oracle s' = oracle s
    /\ (forall ex, r <> Throw ex)
    /\ (x = None -> r = Ok tt)
    /\ (forall T o, x = Some (T, o) -> is_small_v T = false -> r = Ok tt)
    /\ (forall T o, x = Some (T, o) -> is_small_v T = true ->
          (r = Ok tt <-> exists o', copy_ctor (cls T) o = Ok o')
          /\ (forall ex, copy_ctor (cls T) o = Throw ex -> r = Crash terminate_called)).
Proof.
  intros H Hne.
  destruct (Final.function_move_ctor cls e c s) as [r s'] eqn:Hm.
  exists r, s'. split; [done|].
  unfold Final.function_move_ctor, Final.storage_move_ctor in Hm.
  inversion H as [b Hb|T o Hs Hb|T a o Hs Hb Ha]; subst.
  - mrun Hm. repeat split; try done.
  - mrun Hm.
    all: split; [done|]; split; [done|]; split; [done|]; split; [done|].
    all: split; [intros ?? [= <- <-] ?; congruence|].
    all: intros ?? [= <- <-] _.
    all: split; [split; try done; try (intros (? & ?); congruence); eauto|].
    all: intros; congruence.
  - mrun Hm. split; [done|]. split; [done|]. split; [done|]. split; [done|].
    split; [done|]. intros ?? [= <- <-] ?; congruence.
Qed.

(** ** Assignment *)

(** What [apart] says of two containers that hold large callables. *)
Lemma apart_blocks (s : state Obj) (c d : loc) (ac ad : positive) mc md :
  apart s c d ->
  stores s !! c = Some (mk_storage (Pointer (heap_block ac)) mc) ->
  stores s !! d = Some (mk_storage (Pointer (heap_block ad)) md) ->
  ac <> ad.
Proof.
  intros Hap Hc Hd ->. apply (Hap ad); unfold block_of; by rewrite ?Hc, ?Hd.
Qed.

(** X12.  Move assignment [d = move(c)] between two distinct containers
    that do not share a heap block, when it returns: what [d] held is
    destroyed (the block of a large callable is given back), and [d] then
    holds what [c] held.  [c] is left empty when it was empty or held a
    large callable, and is left as it was when it held a small one.
    Nothing is allocated. *)
Theorem move_assign_transfers (s s' : state Obj) (c d : loc)
    (x y : option (tid * Obj)) :
  (forall T o, y = Some (T, o) -> regular (cls T)) ->
  holds s c y ->
  holds s d x ->
  d <> c ->
  apart s c d ->
  Final.function_move_assign cls d c s = (Ok tt, s') ->
  holds s' d y
  /\ (y = None -> holds s' c None)
  /\ (forall T o, y = Some (T, o) -> is_small_v T = false -> holds s' c None)
  /\ (forall T o, y = Some (T, o) -> is_small_v T = true -> holds s' c y)
  /\ (x = None -> heap s' = heap s)
  /\ (forall U u, x = Some (U, u) -> is_small_v U = true -> heap s' = heap s)
  /\ (forall U u, x = Some (U, u) -> is_small_v U = false ->
        exists a, block_of s d = Some a /\ heap s' = delete a (heap s))
  /\ oracle s' = oracle s.
Proof.
  intros Hreg Hc Hd Hne Hap H.
  unfold Final.function_move_assign, Final.storage_move_assign in H.
  rewrite decide_True in H by done.
  inversion Hc as [bc Hb|T o Hs Hb|T a o Hs Hb Ha]; subst;
    inversion Hd as [b Hdb|U u Hu Hdb|U ad u Hu Hdb Hda]; subst.
  all: try (pose proof (Hreg _ _ eq_refl) as Hreg').
  all: try (pose proof (apart_blocks _ _ _ _ _ _ _ Hap Hb Hdb) as Hblk).
  all: mrun_in H; copies.
  all: rewrite ?insert_insert_eq.
  all: split; [holding|].
  all: split; [intros ?; first [congruence | holding]|].
  all: split; [intros ?? ? ?; simplify_eq; first [congruence | holding]|].
  all: split; [intros ?? ? ?; simplify_eq; first [congruence | holding]|].
  all: split; [try done|].
  all: split; [intros ?? [= <- <-] ?; first [congruence | done]|].
  all: split; [|done].
  all: intros ?? [= <- <-] ?; try congruence.
  all: eexists; split; last done.
  all: unfold block_of;
    match goal with Hx : stores _ !! _ = Some _ |- _ => by rewrite Hx end.
Qed.

(** X13.  Copy assignment [d = c] to an empty container keeps the strong
    guarantee.  The backup of an empty container is empty, destroying an
    empty container does nothing, and the copy that restores it writes
    the table pointer only: no code of a callable type runs but the one
    copy of what [c] holds.  So if the assignment throws, [d] is still
    empty, and the heap and every other storage are as before. *)
Theorem copy_assign_to_empty_is_strong (s s' : state Obj) (c d : loc) (e : exn) :
  holds s d None ->
  Final.function_copy_assign cls d c s = (Throw e, s') ->
  holds s' d None
  /\ heap s' = heap s
  /\ (forall l, l <> d -> stores s' !! l = stores s !! l).
Proof.
  intros Hd H.
  assert (Hsame : stores s' = stores s /\ heap s' = heap s).
  { unfold Final.function_copy_assign, Final.storage_copy_assign in H.
    destruct (decide (d <> c)) as [Hne|]; [|by mrun H].
    unfold scoped in H.
    assert (Htemp : stores s !! fresh (dom (stores s)) = None)
      by apply not_elem_of_dom, is_fresh.
    remember (fresh (dom (stores s))) as temp eqn:Et. clear Et.
    assert (Htd : temp <> d) by (intros ->; inversion Hd; congruence).
    unfold Final.storage_copy_ctor, Final.storage_dtor, Final.table_at in H.
    inversion Hd as [b Hdb| |]; subst.
    destruct (decide (temp = c)) as [->|Htc]; mrun H.
    all: split; [same_maps|done]. }
  destruct Hsame as [Hst Hh]. inversion Hd as [b Hdb| |]; subst.
  split; [eapply Final.holds_nothing; rewrite Hst; exact Hdb|].
  split; [done|]. intros l _. by rewrite Hst.
Qed.

(** X14.  Copy assignment [d = c] between two distinct containers that do
    not share a heap block, when it returns: [d] holds a copy of what [c]
    holds (nothing, when [c] is empty), [c] holds what it held, and the
    two still share no block.  What [d] held is destroyed: its block,
    when it had one, is given back (the allocator may hand the same
    address out again for the copy).  No other storage and no other heap
    block changes. *)
Theorem copy_assign_copies (s s' : state Obj) (c d : loc)
    (x y : option (tid * Obj)) :
  (forall T o, y = Some (T, o) -> regular (cls T)) ->
  holds s c y ->
  holds s d x ->
  d <> c ->
  apart s c d ->
  Final.function_copy_assign cls d c s = (Ok tt, s') ->
  holds s' d y
  /\ holds s' c y
  /\ apart s' c d
  /\ (forall l, l <> d -> stores s' !! l = stores s !! l)
  /\ (forall a, block_of s d <> Some a -> block_of s' d <> Some a ->
        heap s' !! a = heap s !! a)
  /\ (forall U u a, x = Some (U, u) -> is_small_v U = false ->
        block_of s d = Some a -> block_of s' d <> Some a ->
        heap s' !! a = None).
Proof.
  intros Hreg Hc Hd Hne Hap H.
  unfold Final.function_copy_assign, Final.storage_copy_assign in H.
  rewrite decide_True in H by done.
  unfold scoped in H.
  assert (Htemp : stores s !! fresh (dom (stores s)) = None)
    by apply not_elem_of_dom, is_fresh.
  remember (fresh (dom (stores s))) as temp eqn:Et. clear Et.
  assert (Htd : temp <> d) by (intros ->; inversion Hd; congruence).
  assert (Htc : temp <> c) by (intros ->; inversion Hc; congruence).
  unfold Final.storage_copy_ctor, Final.storage_dtor, Final.table_at in H.
  inversion Hc as [bc Hb|T o Hs Hb|T ac o Hs Hb Ha]; subst;
    inversion Hd as [b Hdb|U u Hu Hdb|U ad u Hu Hdb Hda]; subst.
  all: try (pose proof (Hreg _ _ eq_refl) as Hreg').
  all: try (pose proof (apart_blocks _ _ _ _ _ _ _ Hap Hb Hdb) as Hblk).
  all: unfold apart, block_of in Hap; rewrite Hb, Hdb in Hap; simpl in Hap.
  all: mrun_in H.
  all: name_fresh.
  all: settle.
  all: copies.
  all: split; [holding|]; split; [holding|]; split; [parting|].
  all: split; [intros ? ?; framing|].
  all: unfold block_of; lookups;
    repeat match goal with
           | Hx : stores _ !! _ = Some _ |- _ => rewrite Hx
           end; simpl.
  all: split; [intros ? ? ?; framing|].
  all: intros ? ? ? ? ? ? ?; simplify_eq; framing.
Qed.
End FinalLifecycle.

(** ** After the destructor *)

Section FinalAfterDestruction.
Context {R Args Obj : Type}.
Variable cls : tid -> callable R Args Obj.
Variables sizeof_ptr alignof_ptr : Z.

Local Abbreviation holds := (Final.holds cls sizeof_ptr alignof_ptr).

(** X15.  The destructor does not reset the storage it destroys: after
    the destructor of a container that holds a callable, the container
    still has the table pointer of the callable's type, over a dead
    object.  Its [operator bool] still answers [true], and a call on it
    and a second destruction are undefined behaviour. *)
Theorem destroyed_container_is_dead (s s' : state Obj) (this : loc) (T : tid)
    (o : Obj) (args : Args) :
  holds s this (Some (T, o)) ->
  Final.function_dtor cls this s = (Ok tt, s') ->
  Final.function_bool this s' = (Ok true, s')
  /\ Final.function_call cls this args s' = (Crash undefined_behaviour, s')
  /\ Final.function_dtor cls this s' = (Crash undefined_behaviour, s').
Proof.
  intros H Hd.
  destruct (Final.function_call cls this args s') as [r1 s1] eqn:H1.
  destruct (Final.function_dtor cls this s') as [r2 s2] eqn:H2.
  destruct (Final.function_bool this s') as [r3 s3] eqn:H3.
  unfold Final.function_dtor, Final.storage_dtor in Hd, H2.
  unfold Final.function_call in H1. unfold Final.function_bool in H3.
  inversion H as [|T' o' Hs Hb|T' a o' Hs Hb Ha]; subst.
  - mrun Hd. mrun H1. mrun H2. mrun H3. by repeat split.
  - mrun Hd. mrun H1; mrun H2; mrun H3; settle. by repeat split.
Qed.
End FinalAfterDestruction.

(** * Further properties of the copy-and-swap variant and of the draft *)

Section VariantMoves.
Context {R Args Obj : Type}.
Variable cls : tid -> callable R Args Obj.

(** X16.  In the copy-and-swap variant, move construction from a storage
    with the table of a small type copies the bytes of the buffer and the
    table pointer and runs no constructor of the type: it succeeds
    whatever the type, the new storage has the contents of the source, and
    the source is left with its table pointer and its object. *)
Theorem variant_small_move_copies_bytes (s : state Obj) (c e : loc) (T : tid)
    (b : fn_storage_t Obj) :
  stores s !! c = Some (mk_storage b (object_table T true)) ->
  e <> c ->
  exists s',
    CopySwap.storage_move_ctor cls e c s = (Ok tt, s')
    /\ stores s' !! e = Some (mk_storage b (object_table T true))
    /\ stores s' !! c = Some (mk_storage b (object_table T true))
    /\ (forall l, l <> e -> stores s' !! l = stores s !! l)
    /\ heap s' = heap s /\ oracle s' = oracle s.
Proof.
  intros Hc Hne.
  destruct (CopySwap.storage_move_ctor cls e c s) as [r s'] eqn:H.
  unfold CopySwap.storage_move_ctor, CopySwap.table_at in H. mrun H.
  eexists. split; [done|]. simpl. rewrite !lookup_insert_eq.
  split; [done|]. rewrite !lookup_insert_ne by done.
  split; [done|]. split; [|done].
  intros l Hl. by rewrite !lookup_insert_ne.
Qed.

(** X17.  In the [part_001] draft, the move operation of the small-object
    table runs the move constructor of the type, gives the destination the
    new object and the table pointer of the source, and resets the table
    pointer of the source to the empty state, over the moved-from object
    (which is therefore never destroyed). *)
Theorem draft_small_move_transfers (s : state Obj) (T : tid) (to from : loc)
    (o o' r : Obj) (m : methods_ptr) (vt : storage Obj) :
  to <> from ->
  stores s !! from = Some (mk_storage (InPlace T o) m) ->
  stores s !! to = Some vt ->
  move_construct (cls T) o = Ok (o', r) ->
  exists s',
    Draft.small_move cls T to from s = (Ok tt, s')
    /\ stores s' !! to = Some (mk_storage (InPlace T o') m)
    /\ stores s' !! from = Some (mk_storage (InPlace T r) Draft.get_empty_methods)
    /\ (forall l, l <> to -> l <> from -> stores s' !! l = stores s !! l)
    /\ heap s' = heap s /\ oracle s' = oracle s.
Proof.
  intros Hne Hf Ht Hm.
  destruct (Draft.small_move cls T to from s) as [r0 s'] eqn:H.
  unfold Draft.small_move in H. mrun H.
  eexists. split; [done|]. simpl.
  split; [by rewrite lookup_insert_ne, lookup_insert_eq|].
  split; [by rewrite lookup_insert_eq|]. split; [|done].
  intros l Hl1 Hl2. by rewrite !lookup_insert_ne.
Qed.
End VariantMoves.


Section VariantAssignment.
Context {R Args Obj : Type}.
Variable cls : tid -> callable R Args Obj.
Variables sizeof_ptr alignof_ptr : Z.

Local Abbreviation holds := (CopySwap.holds cls sizeof_ptr alignof_ptr).

(** A goal [holds s l x] of the variant for an explicit state [s]. *)
Ltac holding' :=
  first
    [ eapply CopySwap.holds_nothing; lookups; done
    | eapply CopySwap.holds_small; [done | lookups; done]
    | eapply CopySwap.holds_large; [done | lookups; done | lookups; done] ].

(** X18.  Copy assignment [d = c] of the copy-and-swap variant between
    two distinct containers that do not share a heap block, when it
    returns: [d] holds a copy of what [c] holds, [c] holds what it held,
    and the two still share no block.  What [d] held went to the
    temporary and is destroyed with it: its block, when it had one, is
    given back.  No other storage and no other heap block changes. *)
Theorem variant_copy_assign_copies (s s' : state Obj) (c d : loc)
    (x y : option (tid * Obj)) :
  (forall T o, y = Some (T, o) -> regular (cls T)) ->
  holds s c y ->
  holds s d x ->
  d <> c ->
  apart s c d ->
  CopySwap.storage_copy_assign cls d c s = (Ok tt, s') ->
  holds s' d y
  /\ holds s' c y
  /\ apart s' c d
  /\ (forall l, l <> d -> stores s' !! l = stores s !! l)
  /\ (forall a, block_of s d <> Some a -> block_of s' d <> Some a ->
        heap s' !! a = heap s !! a)
  /\ (forall U u a, x = Some (U, u) ->
        CopySwap.is_small_v cls sizeof_ptr alignof_ptr U = false ->
        block_of s d = Some a -> block_of s' d <> Some a ->
        heap s' !! a = None).
Proof.
  intros Hreg Hc Hd Hne Hap H.
  unfold CopySwap.storage_copy_assign in H.
  rewrite decide_True in H by done.
  unfold scoped in H.
  assert (Htemp : stores s !! fresh (dom (stores s)) = None)
    by apply not_elem_of_dom, is_fresh.
  remember (fresh (dom (stores s))) as temp eqn:Et. clear Et.
  assert (Htd : temp <> d) by (intros ->; inversion Hd; congruence).
  assert (Htc : temp <> c) by (intros ->; inversion Hc; congruence).
  unfold CopySwap.storage_copy_ctor, CopySwap.storage_dtor, CopySwap.swap,
    CopySwap.table_at in H.
  inversion Hc as [bc Hb|T o Hs Hb|T ac o Hs Hb Ha]; subst;
    inversion Hd as [b Hdb|U u Hu Hdb|U ad u Hu Hdb Hda]; subst.
  all: try (pose proof (Hreg _ _ eq_refl) as Hreg').
  all: try (pose proof (apart_blocks _ _ _ _ _ _ _ Hap Hb Hdb) as Hblk).
  all: unfold apart, block_of in Hap; rewrite Hb, Hdb in Hap; simpl in Hap.
  all: mrun_in H.
  all: name_fresh.
  all: settle.
  all: copies.
  all: split; [holding'|]; split; [holding'|]; split; [parting|].
  all: split; [intros ? ?; framing|].
  all: unfold block_of; lookups;
    repeat match goal with
           | Hx : stores _ !! _ = Some _ |- _ => rewrite Hx
           end; simpl.
  all: split; [intros ? ? ?; framing|].
  all: intros ? ? ? ? ? ? ?; simplify_eq; framing.
Qed.
End VariantAssignment.

(** * Independence of copies *)

Section Independence.
Context {R Args Obj : Type}.
Variable cls : tid -> callable R Args Obj.
Variables sizeof_ptr alignof_ptr : Z.

Local Abbreviation is_small_v := (Final.is_small_v cls sizeof_ptr alignof_ptr).
Local Abbreviation function_call := (Final.function_call cls).
Local Abbreviation holds := (Final.holds cls sizeof_ptr alignof_ptr).

Lemma apart_sym (s : state Obj) (c d : loc) : apart s c d -> apart s d c.
Proof. intros H a Hd Hc. exact (H a Hc Hd). Qed.

(** A call on the container [d] steps the callable that [d] holds, and
    nothing of a container [c] that shares no heap block with [d]. *)
Lemma call_steps_apart (s : state Obj) (c d : loc) (T : tid) (o : Obj)
    (x : option (tid * Obj)) (args : Args) :
  holds s d (Some (T, o)) ->
  holds s c x ->
  d <> c ->
  apart s c d ->
  exists s2,
    function_call d args s = (fst (call (cls T) o args), s2)
    /\ holds s2 d (Some (T, snd (call (cls T) o args)))
    /\ holds s2 c x
    /\ apart s2 c d.
Proof.
  intros Hd Hc Hne Hap.
  inversion Hd as [|T' o' Hs Hb|T' a o' Hs Hb Ha]; subst.
  - eexists. split; [by apply call_small|].
    split; [holding|].
    split; [inversion Hc; subst; holding|].
    intros b Hcb. unfold block_of. simpl. rewrite lookup_insert_eq. done.
  - eexists. split; [by eapply call_large|].
    split; [holding|]. split; [|exact Hap].
    inversion Hc as [bc Hcb|U u Hu Hcb|U ac u Hu Hcb Hca]; subst.
    + holding.
    + holding.
    + pose proof (apart_blocks _ _ _ _ _ _ _ Hap Hcb Hb) as Hblk. holding.
Qed.

(** What copy construction and copy assignment leave, for a type that
    copies by value: two containers that hold the callable and share no
    heap block. *)
Lemma copy_ctor_twins (s s1 : state Obj) (c d : loc) (T : tid) (o : Obj) :
  regular (cls T) ->
  holds s c (Some (T, o)) ->
  d <> c ->
  Final.function_copy_ctor cls d c s = (Ok tt, s1) ->
  holds s1 c (Some (T, o)) /\ holds s1 d (Some (T, o)) /\ apart s1 c d.
Proof.
  intros Hreg Hc Hne H.
  unfold Final.function_copy_ctor, Final.storage_copy_ctor in H.
  inversion Hc as [|T' o0 Hs Hb|T' a o0 Hs Hb Ha]; subst.
  - mrun H. copies. rewrite !insert_insert_eq.
    split; [holding|]. split; [holding|]. parting.
  - mrun H.
    all: copies; name_fresh; rewrite ?insert_insert_eq.
    all: split; [holding|]; split; [holding|]; parting.
Qed.

Lemma copy_assign_twins (s s1 : state Obj) (c d : loc) (T : tid) (o : Obj)
    (x : option (tid * Obj)) :
  regular (cls T) ->
  holds s c (Some (T, o)) ->
  holds s d x ->
  d <> c ->
  apart s c d ->
  Final.function_copy_assign cls d c s = (Ok tt, s1) ->
  holds s1 c (Some (T, o)) /\ holds s1 d (Some (T, o)) /\ apart s1 c d.
Proof.
  intros Hreg Hc Hd Hne Hap H.
  unfold Final.function_copy_assign, Final.storage_copy_assign in H.
  rewrite decide_True in H by done.
  unfold scoped in H.
  assert (Htemp : stores s !! fresh (dom (stores s)) = None)
    by apply not_elem_of_dom, is_fresh.
  remember (fresh (dom (stores s))) as temp eqn:Et. clear Et.
  assert (Htd : temp <> d) by (intros ->; inversion Hd; congruence).
  assert (Htc : temp <> c) by (intros ->; inversion Hc; congruence).
  unfold Final.storage_copy_ctor, Final.storage_dtor, Final.table_at in H.
  inversion Hc as [|T' o0 Hs Hb|T' ac o0 Hs Hb Ha]; subst;
    inversion Hd as [b Hdb|U u Hu Hdb|U ad u Hu Hdb Hda]; subst.
  all: try (pose proof (apart_blocks _ _ _ _ _ _ _ Hap Hb Hdb) as Hblk).
  all: unfold apart, block_of in Hap; rewrite Hb, Hdb in Hap; simpl in Hap.
  all: mrun_in H.
  all: name_fresh.
  all: settle.
  all: copies.
  all: split; [holding|]; split; [holding|]; parting.
Qed.
End Independence.

Section IndependentCopies.
Import Examples.

(** C9.  Copies are independent.  After [d] is made a copy of the
    non-empty container [c], by copy construction or by the assignment
    [d = c], both hold the callable and they share no heap block; a call
    on [d] gives the result that the same call on [c] gives.  A call on
    [d] steps the callable that [d] holds and leaves [c] holding its
    callable in the state it had, so that the next call on [c] answers as
    if the call on [d] had not been made; and the same with [c] and [d]
    exchanged.  In particular a counter, small or large, called twice
    (1, 2) and then copied, by construction or by assignment, answers 3 in
    the copy and 3 in the original. *)
Theorem copies_are_independent :
  (forall (R Args Obj : Type) (cls : tid -> callable R Args Obj)
          (sizeof_ptr alignof_ptr : Z) (s s1 : state Obj) (c d : loc)
          (T : tid) (o : Obj),
     regular (cls T) ->
     Final.holds cls sizeof_ptr alignof_ptr s c (Some (T, o)) ->
     d <> c ->
     (Final.function_copy_ctor cls d c s = (Ok tt, s1)
      \/ exists x, Final.holds cls sizeof_ptr alignof_ptr s d x
                   /\ apart s c d
                   /\ Final.function_copy_assign cls d c s = (Ok tt, s1)) ->
     Final.holds cls sizeof_ptr alignof_ptr s1 c (Some (T, o))
     /\ Final.holds cls sizeof_ptr alignof_ptr s1 d (Some (T, o))
     /\ apart s1 c d
     /\ (forall args,
           fst (Final.function_call cls d args s1) = fst (call (cls T) o args)
           /\ fst (Final.function_call cls c args s1) = fst (call (cls T) o args))
     /\ (forall args', exists s2,
           Final.function_call cls d args' s1 = (fst (call (cls T) o args'), s2)
           /\ Final.holds cls sizeof_ptr alignof_ptr s2 d
                (Some (T, snd (call (cls T) o args')))
           /\ Final.holds cls sizeof_ptr alignof_ptr s2 c (Some (T, o))
           /\ apart s2 c d
           /\ forall args,
                fst (Final.function_call cls c args s2)
                = fst (Final.function_call cls c args s1))
     /\ (forall args', exists s2,
           Final.function_call cls c args' s1 = (fst (call (cls T) o args'), s2)
           /\ Final.holds cls sizeof_ptr alignof_ptr s2 c
                (Some (T, snd (call (cls T) o args')))
           /\ Final.holds cls sizeof_ptr alignof_ptr s2 d (Some (T, o))
           /\ apart s2 c d
           /\ forall args,
                fst (Final.function_call cls d args s2)
                = fst (Final.function_call cls d args s1)))
  /\ (forall T, T = small_counter \/ T = large_counter ->
        let s0 := make T 0%nat 0 start in
        let '(r1, s1) := Final.function_call cls 0%nat 0 s0 in
        let '(r2, s2) := Final.function_call cls 0%nat 0 s1 in
        let s3 := after (Final.function_copy_ctor cls 1%nat 0%nat) s2 in
        let '(r3', s4) := Final.function_call cls 1%nat 0 s3 in
        let '(r3, s5) := Final.function_call cls 0%nat 0 s4 in
        (r1, r2, r3', r3) = (Ok 1, Ok 2, Ok 3, Ok 3))
  /\ (forall T, T = small_counter \/ T = large_counter ->
        let s0 := make large_adder 1%nat 7 (make T 0%nat 0 start) in
        let '(r1, s1) := Final.function_call cls 0%nat 0 s0 in
        let '(r2, s2) := Final.function_call cls 0%nat 0 s1 in
        let s3 := after (Final.function_copy_assign cls 1%nat 0%nat) s2 in
        let '(r3', s4) := Final.function_call cls 1%nat 0 s3 in
        let '(r3, s5) := Final.function_call cls 0%nat 0 s4 in
        (r1, r2, r3', r3) = (Ok 1, Ok 2, Ok 3, Ok 3)).
Proof.
  split; [|split; intros T [-> | ->]; by vm_compute].
  intros R Args Obj cls' sp ap s s1 c d T o Hreg Hc Hne Hcopy.
  assert (Htwins : Final.holds cls' sp ap s1 c (Some (T, o))
                   /\ Final.holds cls' sp ap s1 d (Some (T, o))
                   /\ apart s1 c d).
  { destruct Hcopy as [H | (x & Hd & Hap & H)].
    - by eapply copy_ctor_twins.
    - by eapply copy_assign_twins. }
  destruct Htwins as (Hc1 & Hd1 & Hap1).
  split; [done|]. split; [done|]. split; [done|].
  split; [intros args; split; by eapply call_held|].
  split; intros args'.
  - destruct (call_steps_apart cls' sp ap s1 c d T o _ args' Hd1 Hc1 Hne Hap1)
      as (s2 & Hcall & Hd2 & Hc2 & Hap2).
    exists s2. split; [done|]. split; [done|]. split; [done|]. split; [done|].
    intros args. by rewrite (call_held cls' sp ap s2 c args T o Hc2),
      (call_held cls' sp ap s1 c args T o Hc1).
  - destruct (call_steps_apart cls' sp ap s1 d c T o _ args' Hc1 Hd1
                (not_eq_sym Hne) (apart_sym _ _ _ Hap1))
      as (s2 & Hcall & Hc2 & Hd2 & Hap2).
    exists s2. split; [done|]. split; [done|]. split; [done|].
    split; [by apply apart_sym|].
    intros args. by rewrite (call_held cls' sp ap s2 d args T o Hd2),
      (call_held cls' sp ap s1 d args T o Hd1).
Qed.

Lemma copies_are_independent_witness :
  let s := make large_adder 1%nat 7 (make small_counter 0%nat 2 start) in
  let s1 := after (Final.function_copy_assign cls 1%nat 0%nat) s in
  let s2 := after (Final.function_call cls 1%nat 0) s1 in
  Final.holds cls sizeof_ptr alignof_ptr s 0%nat (Some (small_counter, 2))
  /\ Final.holds cls sizeof_ptr alignof_ptr s 1%nat (Some (large_adder, 7))
  /\ Final.function_copy_assign cls 1%nat 0%nat s = (Ok tt, s1)
  /\ Final.function_call cls 1%nat 0 s1 = (Ok 3, s2)
  /\ Final.holds cls sizeof_ptr alignof_ptr s2 1%nat (Some (small_counter, 3))
  /\ Final.holds cls sizeof_ptr alignof_ptr s2 0%nat (Some (small_counter, 2))
  /\ fst (Final.function_call cls 0%nat 0 s2) = fst (Final.function_call cls 0%nat 0 s1).
Proof.
  simpl.
  assert (H1 : Final.holds cls sizeof_ptr alignof_ptr
                 (make large_adder 1%nat 7 (make small_counter 0%nat 2 start))
                 0%nat (Some (small_counter, 2)))
    by (eapply Final.holds_small; vm_compute; reflexivity).
  assert (H2 : Final.holds cls sizeof_ptr alignof_ptr
                 (make large_adder 1%nat 7 (make small_counter 0%nat 2 start))
                 1%nat (Some (large_adder, 7)))
    by (eapply Final.holds_large; vm_compute; reflexivity).
  assert (H3 : apart (make large_adder 1%nat 7 (make small_counter 0%nat 2 start))
                 0%nat 1%nat)
    by (intros a; vm_compute; congruence).
  assert (H4 : Final.function_copy_assign cls 1%nat 0%nat
                 (make large_adder 1%nat 7 (make small_counter 0%nat 2 start))
               = (Ok tt,
                  after (Final.function_copy_assign cls 1%nat 0%nat)
                    (make large_adder 1%nat 7 (make small_counter 0%nat 2 start))))
    by (vm_compute; reflexivity).
  assert (H5 : 1%nat <> 0%nat) by discriminate.
  split; [exact H1|]. split; [exact H2|]. split; [exact H4|].
  destruct (proj1 copies_are_independent _ _ _ cls sizeof_ptr alignof_ptr _ _ _ _ _ _
              (examples_regular small_counter) H1 H5
              (or_intror (ex_intro _ _ (conj H2 (conj H3 H4)))))
    as (_ & _ & _ & _ & Hstep & _).
  destruct (Hstep 0) as (s2 & Hcall & Hd2 & Hc2 & _ & Hsame).
  assert (Hs2 : s2 = after (Final.function_call cls 1%nat 0)
                       (after (Final.function_copy_assign cls 1%nat 0%nat)
                          (make large_adder 1%nat 7 (make small_counter 0%nat 2 start))))
    by (unfold after at 1; rewrite Hcall; reflexivity).
  subst s2.
  split; [exact Hcall|]. split; [exact Hd2|]. split; [exact Hc2|]. exact (Hsame 0).
Defined.
End IndependentCopies.

(** * The further properties at concrete inputs *)

Section MoreRuns.
Import Examples.

Local Abbreviation function_ctor := (Final.function_ctor cls sizeof_ptr alignof_ptr).
Local Abbreviation function_call := (Final.function_call cls).
Local Abbreviation function_dtor := (Final.function_dtor cls).
Local Abbreviation holds := (Final.holds cls sizeof_ptr alignof_ptr).

(** What the containers of the example states hold. *)
Lemma large_counter_held :
  holds (make large_counter 0%nat 10 start) 0%nat (Some (large_counter, 10)).
Proof. eapply Final.holds_large; by vm_compute. Qed.

Lemma small_counter_held :
  holds (make small_counter 0%nat 10 start) 0%nat (Some (small_counter, 10)).
Proof. eapply Final.holds_small; by vm_compute. Qed.

Lemma two_large_held :
  holds two_large 0%nat (Some (large_adder, 10))
  /\ holds two_large 1%nat (Some (large_counter, 20))
  /\ apart two_large 1%nat 0%nat.
Proof.
  split; [eapply Final.holds_large; by vm_compute|].
  split; [eapply Final.holds_large; by vm_compute|].
  intros a. vm_compute. congruence.
Qed.

Lemma call_steps_callable_witness :
  let s := make large_counter 0%nat 10 start in
  holds s 0%nat (Some (large_counter, 10))
  /\ exists s', function_call 0%nat 0 s = (Ok 11, s')
                /\ holds s' 0%nat (Some (large_counter, 11)).
Proof.
  simpl. split; [exact large_counter_held|].
  destruct (call_steps_callable cls sizeof_ptr alignof_ptr _ _ _ _ 0 large_counter_held)
    as (s' & Hcall & Hh & _).
  exists s'. exact (conj Hcall Hh).
Defined.

Lemma operator_bool_tells_emptiness_witness :
  let s := make small_counter 0%nat 10 start in
  holds s 0%nat (Some (small_counter, 10))
  /\ Final.function_bool 0%nat s = (Ok true, s).
Proof.
  simpl. split; [exact small_counter_held|].
  destruct (operator_bool_tells_emptiness cls sizeof_ptr alignof_ptr _ _ _
              small_counter_held) as (b & Hb & Ht & _).
  rewrite Hb. f_equal. f_equal. apply Ht. eauto.
Defined.

Lemma small_construction_uses_no_heap_witness :
  Final.is_small_v cls sizeof_ptr alignof_ptr small_adder = true
  /\ fst (function_ctor small_adder 0%nat 37 (allocator [false] start))
     <> Throw bad_alloc.
Proof.
  assert (H1 : Final.is_small_v cls sizeof_ptr alignof_ptr small_adder = true)
    by reflexivity.
  split; [exact H1|].
  exact (proj1 (small_construction_uses_no_heap cls sizeof_ptr alignof_ptr
                  (allocator [false] start) small_adder 0%nat 37 H1) bad_alloc).
Defined.

Lemma large_construction_allocates_once_witness :
  let s' := make large_adder 0%nat 37 start in
  Final.is_small_v cls sizeof_ptr alignof_ptr large_adder = false
  /\ function_ctor large_adder 0%nat 37 start = (Ok tt, s')
  /\ exists a o', heap s' = <[a := (large_adder, o')]> (heap start)
                  /\ block_of s' 0%nat = Some a.
Proof.
  simpl.
  assert (H1 : Final.is_small_v cls sizeof_ptr alignof_ptr large_adder = false)
    by reflexivity.
  assert (H2 : function_ctor large_adder 0%nat 37 start
               = (Ok tt, make large_adder 0%nat 37 start))
    by (vm_compute; reflexivity).
  split; [exact H1|]. split; [exact H2|].
  destruct (large_construction_allocates_once cls sizeof_ptr alignof_ptr _ _ _ _ _ H1 H2)
    as (a & o' & _ & _ & Hh & Hb & _).
  exists a, o'. exact (conj Hh Hb).
Defined.

Lemma failed_construction_leaves_nothing_witness :
  let s := allocator [false] start in
  let s' := after (function_ctor large_counter 0%nat 10) s in
  function_ctor large_counter 0%nat 10 s = (Throw bad_alloc, s')
  /\ heap s' = heap s
  /\ stores s' !! 0%nat = Some (mk_storage Indeterminate Final.get_empty_methods).
Proof.
  simpl.
  assert (H1 : function_ctor large_counter 0%nat 10 (allocator [false] start)
               = (Throw bad_alloc,
                  after (function_ctor large_counter 0%nat 10) (allocator [false] start)))
    by (vm_compute; reflexivity).
  split; [exact H1|].
  destruct (failed_construction_leaves_nothing cls sizeof_ptr alignof_ptr _ _ _ _ _ _ H1)
    as (_ & Hh & Hs & _).
  exact (conj Hh Hs).
Defined.

Lemma construct_then_target_witness :
  let s' := make large_counter 0%nat 10 start in
  function_ctor large_counter 0%nat 10 start = (Ok tt, s')
  /\ exists p o', Final.function_target cls sizeof_ptr alignof_ptr large_counter 0%nat s'
                  = (Ok p, s')
                  /\ Final.points_to s' p large_counter o'.
Proof.
  simpl.
  assert (H1 : function_ctor large_counter 0%nat 10 start
               = (Ok tt, make large_counter 0%nat 10 start))
    by (vm_compute; reflexivity).
  split; [exact H1|].
  destruct (construct_then_target cls sizeof_ptr alignof_ptr _ _ _ _ _ H1)
    as (p & o' & Ht & Hp & _).
  exists p, o'. exact (conj Ht Hp).
Defined.

Lemma destructor_releases_witness :
  let s := make large_counter 0%nat 10 start in
  holds s 0%nat (Some (large_counter, 10))
  /\ exists s', function_dtor 0%nat s = (Ok tt, s') /\ oracle s' = oracle s.
Proof.
  simpl. split; [exact large_counter_held|].
  destruct (destructor_releases cls sizeof_ptr alignof_ptr _ _ _ large_counter_held)
    as (s' & v & v' & Hd & _ & _ & _ & _ & _ & _ & Ho & _).
  exists s'. exact (conj Hd Ho).
Defined.

Lemma construct_then_destroy_witness :
  function_ctor large_counter 0%nat 10 start
  = (Ok tt, make large_counter 0%nat 10 start)
  /\ exists s2, function_dtor 0%nat (make large_counter 0%nat 10 start) = (Ok tt, s2)
                /\ heap s2 = heap start.
Proof.
  assert (H1 : function_ctor large_counter 0%nat 10 start
               = (Ok tt, make large_counter 0%nat 10 start))
    by (vm_compute; reflexivity).
  split; [exact H1|].
  exact (construct_then_destroy cls sizeof_ptr alignof_ptr _ _ _ _ _ H1).
Defined.

Lemma empty_copies_to_empty_witness :
  let s := after (Final.function_default_ctor 0%nat) start in
  holds s 0%nat None
  /\ exists s', Final.function_copy_ctor cls 1%nat 0%nat s = (Ok tt, s')
                /\ holds s' 1%nat None.
Proof.
  simpl.
  assert (H1 : holds (after (Final.function_default_ctor 0%nat) start) 0%nat None)
    by (eapply Final.holds_nothing; vm_compute; reflexivity).
  assert (H2 : 1%nat <> 0%nat) by discriminate.
  split; [exact H1|].
  destruct (proj1 (empty_copies_to_empty cls sizeof_ptr alignof_ptr _ _ _ H1 H2))
    as (s' & Hc & Hh & _).
  exists s'. exact (conj Hc Hh).
Defined.

Lemma copy_construction_duplicates_witness :
  let s := make large_counter 0%nat 10 start in
  let s' := after (Final.function_copy_ctor cls 1%nat 0%nat) s in
  holds s 0%nat (Some (large_counter, 10))
  /\ Final.function_copy_ctor cls 1%nat 0%nat s = (Ok tt, s')
  /\ exists o', holds s' 1%nat (Some (large_counter, o')) /\ apart s' 0%nat 1%nat.
Proof.
  simpl.
  assert (H1 : Final.function_copy_ctor cls 1%nat 0%nat (make large_counter 0%nat 10 start)
               = (Ok tt, after (Final.function_copy_ctor cls 1%nat 0%nat)
                           (make large_counter 0%nat 10 start)))
    by (vm_compute; reflexivity).
  assert (H2 : 1%nat <> 0%nat) by discriminate.
  split; [exact large_counter_held|]. split; [exact H1|].
  destruct (copy_construction_duplicates cls sizeof_ptr alignof_ptr _ _ _ _ _ _
              large_counter_held H2 H1) as (o' & _ & He & _ & Hap & _).
  exists o'. exact (conj He Hap).
Defined.

Lemma move_construction_keeps_heap_witness :
  let s := make large_counter 0%nat 10 start in
  holds s 0%nat (Some (large_counter, 10))
  /\ exists s', Final.function_move_ctor cls 1%nat 0%nat s = (Ok tt, s')
                /\ heap s' = heap s.
Proof.
  simpl.
  assert (H2 : 1%nat <> 0%nat) by discriminate.
  split; [exact large_counter_held|].
  destruct (move_construction_keeps_heap cls sizeof_ptr alignof_ptr _ _ _ _
              large_counter_held H2) as (r & s' & Hm & Hh & _ & _ & _ & Hl & _).
  exists s'. rewrite (Hl large_counter 10 eq_refl eq_refl) in Hm.
  exact (conj Hm Hh).
Defined.

Lemma move_assign_transfers_witness :
  let s' := after (Final.function_move_assign cls 0%nat 1%nat) two_large in
  Final.function_move_assign cls 0%nat 1%nat two_large = (Ok tt, s')
  /\ holds s' 0%nat (Some (large_counter, 20))
  /\ holds s' 1%nat None.
Proof.
  simpl.
  assert (H1 : Final.function_move_assign cls 0%nat 1%nat two_large
               = (Ok tt, after (Final.function_move_assign cls 0%nat 1%nat) two_large))
    by (vm_compute; reflexivity).
  assert (H2 : 0%nat <> 1%nat) by discriminate.
  destruct two_large_held as (Hd & Hc & Hap).
  split; [exact H1|].
  destruct (move_assign_transfers cls sizeof_ptr alignof_ptr _ _ _ _ _ _
              (fun T _ _ => examples_regular T) Hc Hd H2 Hap H1)
    as (Ha & _ & Hb & _).
  split; [exact Ha|]. exact (Hb large_counter 20 eq_refl eq_refl).
Defined.

Lemma copy_assign_to_empty_is_strong_witness :
  let s := allocator [false]
             (make large_counter 1%nat 20
                (after (Final.function_default_ctor 0%nat) start)) in
  let s' := after (Final.function_copy_assign cls 0%nat 1%nat) s in
  holds s 0%nat None
  /\ Final.function_copy_assign cls 0%nat 1%nat s = (Throw bad_alloc, s')
  /\ holds s' 0%nat None
  /\ heap s' = heap s.
Proof.
  simpl.
  assert (H1 : holds (allocator [false]
                        (make large_counter 1%nat 20
                           (after (Final.function_default_ctor 0%nat) start)))
                 0%nat None)
    by (eapply Final.holds_nothing; vm_compute; reflexivity).
  assert (H2 : Final.function_copy_assign cls 0%nat 1%nat
                 (allocator [false]
                    (make large_counter 1%nat 20
                       (after (Final.function_default_ctor 0%nat) start)))
               = (Throw bad_alloc,
                  after (Final.function_copy_assign cls 0%nat 1%nat)
                    (allocator [false]
                       (make large_counter 1%nat 20
                          (after (Final.function_default_ctor 0%nat) start)))))
    by (vm_compute; reflexivity).
  split; [exact H1|]. split; [exact H2|].
  destruct (copy_assign_to_empty_is_strong cls sizeof_ptr alignof_ptr _ _ 1%nat 0%nat
              bad_alloc H1 H2) as (Ha & Hb & _).
  exact (conj Ha Hb).
Defined.

Lemma copy_assign_copies_witness :
  let s' := after (Final.function_copy_assign cls 0%nat 1%nat) two_large in
  Final.function_copy_assign cls 0%nat 1%nat two_large = (Ok tt, s')
  /\ holds s' 0%nat (Some (large_counter, 20))
  /\ holds s' 1%nat (Some (large_counter, 20))
  /\ apart s' 1%nat 0%nat.
Proof.
  simpl.
  assert (H1 : Final.function_copy_assign cls 0%nat 1%nat two_large
               = (Ok tt, after (Final.function_copy_assign cls 0%nat 1%nat) two_large))
    by (vm_compute; reflexivity).
  assert (H2 : 0%nat <> 1%nat) by discriminate.
  destruct two_large_held as (Hd & Hc & Hap).
  split; [exact H1|].
  destruct (copy_assign_copies cls sizeof_ptr alignof_ptr _ _ _ _ _ _
              (fun T _ _ => examples_regular T) Hc Hd H2 Hap H1)
    as (Ha & Hb & Hp & _).
  exact (conj Ha (conj Hb Hp)).
Defined.

Lemma destroyed_container_is_dead_witness :
  let s := make large_counter 0%nat 10 start in
  let s' := after (function_dtor 0%nat) s in
  function_dtor 0%nat s = (Ok tt, s')
  /\ function_call 0%nat 0 s' = (Crash undefined_behaviour, s').
Proof.
  simpl.
  assert (H1 : function_dtor 0%nat (make large_counter 0%nat 10 start)
               = (Ok tt, after (function_dtor 0%nat) (make large_counter 0%nat 10 start)))
    by (vm_compute; reflexivity).
  split; [exact H1|].
  exact (proj1 (proj2 (destroyed_container_is_dead cls sizeof_ptr alignof_ptr _ _ _ _ _ 0
                         large_counter_held H1))).
Defined.

Lemma variant_small_move_copies_bytes_witness :
  let s0 := after (CopySwap.function_ctor cls sizeof_ptr alignof_ptr small_counter 0%nat 10)
              start in
  stores s0 !! 0%nat = Some (mk_storage (InPlace small_counter 10)
                               (object_table small_counter true))
  /\ exists s', CopySwap.storage_move_ctor cls 1%nat 0%nat s0 = (Ok tt, s')
                /\ stores s' !! 1%nat = stores s' !! 0%nat.
Proof.
  simpl.
  assert (H1 : stores (after (CopySwap.function_ctor cls sizeof_ptr alignof_ptr
                                small_counter 0%nat 10) start) !! 0%nat
               = Some (mk_storage (InPlace small_counter 10)
                         (object_table small_counter true)))
    by (vm_compute; reflexivity).
  assert (H2 : 1%nat <> 0%nat) by discriminate.
  split; [exact H1|].
  destruct (variant_small_move_copies_bytes cls _ _ _ _ _ H1 H2)
    as (s' & Hm & He & Hc & _).
  exists s'. split; [exact Hm|]. rewrite He, Hc. reflexivity.
Defined.

Lemma draft_small_move_transfers_witness :
  let s := after (Final.function_default_ctor 1%nat)
             (make small_fragile 0%nat 10 start) in
  exists s', Draft.small_move cls small_fragile 1%nat 0%nat s = (Ok tt, s')
             /\ stores s' !! 0%nat
                = Some (mk_storage (InPlace small_fragile 0) Draft.get_empty_methods).
Proof.
  simpl.
  assert (H1 : 1%nat <> 0%nat) by discriminate.
  assert (H2 : stores (after (Final.function_default_ctor 1%nat)
                         (make small_fragile 0%nat 10 start)) !! 0%nat
               = Some (mk_storage (InPlace small_fragile 10)
                         (object_table small_fragile true)))
    by (vm_compute; reflexivity).
  assert (H3 : stores (after (Final.function_default_ctor 1%nat)
                         (make small_fragile 0%nat 10 start)) !! 1%nat
               = Some (mk_storage Indeterminate empty_table))
    by (vm_compute; reflexivity).
  assert (H4 : move_construct (cls small_fragile) 10 = Ok (10, 0)) by reflexivity.
  destruct (draft_small_move_transfers cls _ _ _ _ _ _ _ _ _ H1 H2 H3 H4)
    as (s' & Hm & _ & Hf & _).
  exists s'. exact (conj Hm Hf).
Defined.

Lemma variant_copy_assign_copies_witness :
  let s' := after (CopySwap.storage_copy_assign cls 0%nat 1%nat) two_large in
  CopySwap.storage_copy_assign cls 0%nat 1%nat two_large = (Ok tt, s')
  /\ CopySwap.holds cls sizeof_ptr alignof_ptr s' 0%nat (Some (large_counter, 20))
  /\ CopySwap.holds cls sizeof_ptr alignof_ptr s' 1%nat (Some (large_counter, 20)).
Proof.
  simpl.
  assert (H1 : CopySwap.storage_copy_assign cls 0%nat 1%nat two_large
               = (Ok tt, after (CopySwap.storage_copy_assign cls 0%nat 1%nat) two_large))
    by (vm_compute; reflexivity).
  assert (H2 : 0%nat <> 1%nat) by discriminate.
  assert (Hd : CopySwap.holds cls sizeof_ptr alignof_ptr two_large 0%nat
                 (Some (large_adder, 10)))
    by (eapply CopySwap.holds_large; vm_compute; reflexivity).
  assert (Hc : CopySwap.holds cls sizeof_ptr alignof_ptr two_large 1%nat
                 (Some (large_counter, 20)))
    by (eapply CopySwap.holds_large; vm_compute; reflexivity).
  split; [exact H1|].
  destruct (variant_copy_assign_copies cls sizeof_ptr alignof_ptr _ _ _ _ _ _
              (fun T _ _ => examples_regular T) Hc Hd H2
              (proj2 (proj2 two_large_held)) H1)
    as (Ha & Hb & _).
  exact (conj Ha Hb).
Defined.

Lemma copy_and_swap_assign_strong_witness :
  let s := allocator [false] two_large in
  let s' := after (CopySwap.storage_copy_assign cls 0%nat 1%nat) s in
  CopySwap.storage_copy_assign cls 0%nat 1%nat s = (Throw bad_alloc, s')
  /\ stores s' = stores s /\ heap s' = heap s.
Proof.
  simpl.
  assert (H1 : CopySwap.storage_copy_assign cls 0%nat 1%nat (allocator [false] two_large)
               = (Throw bad_alloc,
                  after (CopySwap.storage_copy_assign cls 0%nat 1%nat)
                    (allocator [false] two_large)))
    by (vm_compute; reflexivity).
  split; [exact H1|].
  exact (copy_and_swap_assign_strong cls _ _ _ _ _ H1).
Defined.
End MoreRuns.
